(** * micrograd (C): a scalar reverse-mode autodiff engine

    Shallow embedding of [engine.c] (final revision of the file: the
    [Value] struct, [defaultValue], [grad_clip], [build_dag], [reverse],
    the four [*_reverse] rules and the operators [add], [sub], [mul],
    [pwr], [divide], [relu]).

    - A C [float] is an IEEE-754 binary32 number and a C [double] a
      binary64 number; both are modelled with the executable
      specification of IEEE arithmetic of the standard library
      ([SpecFloat], round to nearest even). [float] expressions are
      evaluated in [float] and [double] expressions in [double]
      ([FLT_EVAL_METHOD] 0); a comparison of a [float] with a constant is
      done on the values, which the promotion to [double] keeps.
    - The heap of [malloc]ed [Value] structs is a list; a pointer is the
      index of the struct in that list, [malloc] appends and never fails.
    - Code that reads or writes the heap runs in a state-and-error monad;
      a dereference of a pointer that is not in the heap, and a write
      past the fixed [MAX_DAG_SIZE] buffers, are explicit errors.
    - [powf], [pow] and [log] come from the C math library and are
      parameters of the development. *)

From Stdlib Require Import ZArith Bool Lia.
From Stdlib Require Import Floats.SpecFloat.
From stdpp Require Import base option list relations.

(** ** Floating point *)

(** C [float]. *)
Module F32.
Definition prec : Z := 24.
Definition emax : Z := 128.
Definition t := spec_float.

Definition add : t -> t -> t := SFadd prec emax.
Definition sub : t -> t -> t := SFsub prec emax.
Definition mul : t -> t -> t := SFmul prec emax.
Definition neg : t -> t := SFopp.
Definition ltb : t -> t -> bool := SFltb.
Definition leb : t -> t -> bool := SFleb.
Definition eqb : t -> t -> bool := SFeqb.
(** [x > y] in C *)
Definition gtb (x y : t) : bool := SFltb y x.

(** conversion of an integer constant to [float] *)
Definition of_Z (z : Z) : t := binary_normalize prec emax z 0 false.
(** rounding of a finite or special value to [float] *)
Definition round (x : spec_float) : t :=
  match x with
  | S754_finite s m e => binary_normalize prec emax (cond_Zopp s (Zpos m)) e s
  | _ => x
  end.

Definition zero : t := S754_zero false.
Definition one : t := Eval cbv in of_Z 1.
Definition two : t := Eval cbv in of_Z 2.
Definition nan : t := S754_nan.
Definition is_nan (x : t) : bool :=
  match x with S754_nan => true | _ => false end.
End F32.

(** C [double]. *)
Module F64.
Definition prec : Z := 53.
Definition emax : Z := 1024.
Definition t := spec_float.

Definition add : t -> t -> t := SFadd prec emax.
Definition mul : t -> t -> t := SFmul prec emax.

(** promotion of a [float] to [double] (exact) *)
Definition of_f32 (x : F32.t) : t :=
  match x with
  | S754_finite s m e => binary_normalize prec emax (cond_Zopp s (Zpos m)) e s
  | _ => x
  end.
End F64.

(** ** The data model *)

(** A [Value *]: the index of the struct in the heap. *)
Abbreviation ptr := nat.

(** The functions a [reverse] field can point to. *)
Inductive revfn := add_reverse_fn | mul_reverse_fn | pwr_reverse_fn | relu_reverse_fn.

(** [struct Value]. [children] holds the contents of the [malloc]ed
    array of operand pointers ([[]] for [NULL]); the field
    [void ( *reverse)(struct Value * )] is [v_reverse], [None] for [NULL]. *)
Record Value := mkValue {
  data : F32.t;
  grad : F32.t;
  children : list ptr;
  n_children : nat;
  v_reverse : option revfn
}.

Abbreviation heap := (list Value).

Definition with_data (x : F32.t) (v : Value) : Value :=
  mkValue x (grad v) (children v) (n_children v) (v_reverse v).
Definition with_grad (x : F32.t) (v : Value) : Value :=
  mkValue (data v) x (children v) (n_children v) (v_reverse v).
Definition with_children (cs : list ptr) (v : Value) : Value :=
  mkValue (data v) (grad v) cs (n_children v) (v_reverse v).
Definition with_n_children (n : nat) (v : Value) : Value :=
  mkValue (data v) (grad v) (children v) n (v_reverse v).
Definition with_reverse (f : option revfn) (v : Value) : Value :=
  mkValue (data v) (grad v) (children v) (n_children v) f.

(** ** Errors and the heap monad *)

Inductive error :=
| Fault      (* dereference of a pointer or array slot that does not exist *)
| Overflow   (* write past the end of a [MAX_DAG_SIZE] buffer *)
| OutOfFuel. (* recursion deeper than the heap has nodes: a cyclic graph *)

Inductive result (A : Type) :=
| Ok (a : A)
| Err (e : error).
Arguments Ok {A} a.
Arguments Err {A} e.

Definition rbind {A B} (r : result A) (k : A -> result B) : result B :=
  match r with
  | Ok a => k a
  | Err e => Err e
  end.

Definition M (A : Type) := heap -> result (A * heap).

Definition ret {A} (a : A) : M A := fun h => Ok (a, h).
Definition bind {A B} (m : M A) (k : A -> M B) : M B :=
  fun h => match m h with
           | Ok (a, h') => k a h'
           | Err e => Err e
           end.

Declare Scope heap_scope.
Delimit Scope heap_scope with M.
Notation "x <- c ;; k" := (bind c (fun x => k))
  (at level 20, c at level 99, k at level 200, only parsing) : heap_scope.
Notation "c ;; k" := (bind c (fun _ => k))
  (at level 100, k at level 200, right associativity, only parsing) : heap_scope.
Open Scope heap_scope.

(** [*p] *)
Definition load (p : ptr) : M Value :=
  fun h => match h !! p with
           | Some v => Ok (v, h)
           | None => Err Fault
           end.
(** [*p = f( *p)] *)
Definition modify (p : ptr) (f : Value -> Value) : M unit :=
  fun h => match h !! p with
           | Some v => Ok (tt, <[p := f v]> h)
           | None => Err Fault
           end.

Definition get_data (p : ptr) : M F32.t := v <- load p ;; ret (data v).
Definition get_grad (p : ptr) : M F32.t := v <- load p ;; ret (grad v).
(** [p->children[i]] *)
Definition get_child (p : ptr) (i : nat) : M ptr :=
  v <- load p ;;
  fun h => match children v !! i with
           | Some c => Ok (c, h)
           | None => Err Fault
           end.
Definition set_data (p : ptr) (x : F32.t) : M unit := modify p (with_data x).
Definition set_grad (p : ptr) (x : F32.t) : M unit := modify p (with_grad x).
Definition set_children (p : ptr) (cs : list ptr) : M unit := modify p (with_children cs).
Definition set_n_children (p : ptr) (n : nat) : M unit := modify p (with_n_children n).
Definition set_reverse (p : ptr) (f : option revfn) : M unit := modify p (with_reverse f).

(** ** Constants *)

Definition MIN_RANGE : F32.t := Eval cbv in F32.of_Z (-10).
Definition MAX_RANGE : F32.t := Eval cbv in F32.of_Z 10.
Definition MAX_DAG_SIZE : nat := 1000.

(** ** [defaultValue] and [grad_clip] *)

(** [malloc] gives the next free index. *)
Definition defaultValue (x : F32.t) : M ptr :=
  fun h => Ok (length h, h ++ [mkValue x F32.zero [] 0 None]).

(** The clamp that [grad_clip] applies to the [grad] field. *)
Definition clip (g : F32.t) : F32.t :=
  if F32.ltb g MIN_RANGE then MIN_RANGE
  else if F32.gtb g MAX_RANGE then MAX_RANGE
  else g.

Definition grad_clip (obj : ptr) : M unit :=
  g <- get_grad obj ;;
  if F32.ltb g MIN_RANGE then set_grad obj MIN_RANGE
  else if F32.gtb g MAX_RANGE then set_grad obj MAX_RANGE
  else ret tt.

(** ** The reverse pass *)

(** The entries [val->children[0 .. n_children-1]] that the loop of
    [build_dag] reads; reading past the array is a fault. *)
Definition operands (v : Value) : result (list ptr) :=
  if n_children v <=? length (children v)
  then Ok (take (n_children v) (children v))
  else Err Fault.

(** [build_dag(val, dag, &dag_size, visited, &len_visited)]. The two
    buffers are the lists [dag] and [visited], with [dag_size = length dag]
    and [len_visited = length visited]. The membership loop runs over
    [visited[0 .. dag_size-1]], as in the source. The heap is only read.
    The recursion of the C function is bounded by [fuel]. *)
Fixpoint build_dag (fuel : nat) (h : heap) (val : ptr)
    (dag visited : list ptr) : result (list ptr * list ptr) :=
  match fuel with
  | 0 => Err OutOfFuel
  | S fuel' =>
    if existsb (Nat.eqb val) (take (length dag) visited) then Ok (dag, visited)
    else if MAX_DAG_SIZE <=? length visited then Err Overflow
    else
      let visited := visited ++ [val] in
      match h !! val with
      | None => Err Fault
      | Some v =>
        rbind (operands v) (fun cs =>
        rbind (foldl (fun acc c =>
                        rbind acc (fun st => build_dag fuel' h c (fst st) (snd st)))
                     (Ok (dag, visited)) cs) (fun st =>
        if MAX_DAG_SIZE <=? length (fst st) then Err Overflow
        else Ok (fst st ++ [val], snd st)))
      end
  end.

(** [add_reverse] *)
Definition add_reverse (c : ptr) : M unit :=
  c0 <- get_child c 0 ;; g0 <- get_grad c0 ;; gc <- get_grad c ;;
  set_grad c0 (F32.add g0 gc) ;;
  c1 <- get_child c 1 ;; g1 <- get_grad c1 ;; gc <- get_grad c ;;
  set_grad c1 (F32.add g1 gc) ;;
  c0 <- get_child c 0 ;; grad_clip c0 ;;
  c1 <- get_child c 1 ;; grad_clip c1.

(** [mul_reverse] *)
Definition mul_reverse (c : ptr) : M unit :=
  c0 <- get_child c 0 ;; g0 <- get_grad c0 ;; gc <- get_grad c ;;
  c1 <- get_child c 1 ;; d1 <- get_data c1 ;;
  set_grad c0 (F32.add g0 (F32.mul gc d1)) ;;
  c1 <- get_child c 1 ;; g1 <- get_grad c1 ;; gc <- get_grad c ;;
  c0 <- get_child c 0 ;; d0 <- get_data c0 ;;
  set_grad c1 (F32.add g1 (F32.mul gc d0)) ;;
  c0 <- get_child c 0 ;; grad_clip c0 ;;
  c1 <- get_child c 1 ;; grad_clip c1.

(** [relu_reverse] *)
Definition relu_reverse (c : ptr) : M unit :=
  a <- get_child c 0 ;;
  ga <- get_grad a ;; da <- get_data a ;; gc <- get_grad c ;;
  set_grad a (F32.add ga (if F32.gtb da F32.zero then gc else F32.zero)) ;;
  grad_clip a.

Section Engine.

(** The C math library. *)
Variable powf : F32.t -> F32.t -> F32.t.
Variable pow : F64.t -> F64.t -> F64.t.
Variable log : F64.t -> F64.t.

(** [pwr_reverse]. The calls to [pow] and [log] make the two right-hand
    sides [double] expressions; the compound assignments add in [double]
    and round the sum to [float]. *)
Definition pwr_reverse (c : ptr) : M unit :=
  a <- get_child c 0 ;;
  b <- get_child c 1 ;;
  ga <- get_grad a ;; db <- get_data b ;; da <- get_data a ;; gc <- get_grad c ;;
  set_grad a
    (F32.round (F64.add (F64.of_f32 ga)
       (F64.mul (F64.mul (F64.of_f32 db)
                         (pow (F64.of_f32 da) (F64.of_f32 (F32.sub db F32.one))))
                (F64.of_f32 gc)))) ;;
  db <- get_data b ;;
  (if F32.gtb db F32.zero then
     gb <- get_grad b ;; da <- get_data a ;; dc <- get_data c ;; gc <- get_grad c ;;
     set_grad b
       (F32.round (F64.add (F64.of_f32 gb)
          (F64.add (F64.mul (log (F64.of_f32 da)) (F64.of_f32 dc))
                   (F64.of_f32 gc))))
   else ret tt) ;;
  c0 <- get_child c 0 ;; grad_clip c0 ;;
  c1 <- get_child c 1 ;; grad_clip c1.

(** The call [dag[i]->reverse(dag[i])] through the function pointer. *)
Definition call_reverse (f : revfn) (c : ptr) : M unit :=
  match f with
  | add_reverse_fn => add_reverse c
  | mul_reverse_fn => mul_reverse c
  | pwr_reverse_fn => pwr_reverse c
  | relu_reverse_fn => relu_reverse c
  end.

(** One iteration of the loop of [reverse]. *)
Definition reverse_step (p : ptr) : M unit :=
  v <- load p ;;
  match v_reverse v with
  | Some f => call_reverse f p
  | None => ret tt
  end.

(** The loop [for (i = dag_size - 1; i >= 0; i--)] over the entries
    of [dag], given last to first. *)
Fixpoint reverse_loop (l : list ptr) : M unit :=
  match l with
  | [] => ret tt
  | p :: l' => reverse_step p ;; reverse_loop l'
  end.

(** [reverse]. A graph built by the operators has no node deeper than
    the heap is long, so the recursion of [build_dag] gets that fuel. *)
Definition reverse (root : ptr) : M unit :=
  fun h =>
    match build_dag (S (length h)) h root [] [] with
    | Err e => Err e
    | Ok (dag, _) => (set_grad root F32.one ;; reverse_loop (rev dag)) h
    end.

(** ** The operators *)

(** [add] *)
Definition add (a b : ptr) : M ptr :=
  res <- defaultValue F32.zero ;;
  da <- get_data a ;; db <- get_data b ;;
  set_data res (F32.add da db) ;;
  set_grad res F32.zero ;;
  set_children res [a; b] ;;
  set_n_children res 2 ;;
  set_reverse res (Some add_reverse_fn) ;;
  ret res.

(** [sub] *)
Definition sub (a b : ptr) : M ptr :=
  db <- get_data b ;;
  negB <- defaultValue (F32.neg db) ;;
  add a negB.

(** [mul] *)
Definition mul (a b : ptr) : M ptr :=
  res <- defaultValue F32.zero ;;
  da <- get_data a ;; db <- get_data b ;;
  set_data res (F32.mul da db) ;;
  set_grad res F32.zero ;;
  set_children res [a; b] ;;
  set_n_children res 2 ;;
  set_reverse res (Some mul_reverse_fn) ;;
  ret res.

(** [pwr] *)
Definition pwr (a b : ptr) : M ptr :=
  res <- defaultValue F32.zero ;;
  da <- get_data a ;; db <- get_data b ;;
  set_data res (powf da db) ;;
  set_grad res F32.zero ;;
  set_children res [a; b] ;;
  set_n_children res 2 ;;
  set_reverse res (Some pwr_reverse_fn) ;;
  ret res.

(** [divide]: the argument [defaultValue(-1)] is evaluated before the
    call of [pwr]. *)
Definition divide (a b : ptr) : M ptr :=
  m1 <- defaultValue (F32.of_Z (-1)) ;;
  reciprocal <- pwr b m1 ;;
  mul a reciprocal.

(** [relu] *)
Definition relu (a : ptr) : M ptr :=
  res <- defaultValue F32.zero ;;
  da <- get_data a ;;
  set_data res (if F32.gtb da F32.zero then da else F32.zero) ;;
  set_grad res F32.zero ;;
  set_children res [a] ;;
  set_n_children res 1 ;;
  set_reverse res (Some relu_reverse_fn) ;;
  ret res.

(** The body of [main], up to the calls of [print]. *)
Definition main : M (ptr * ptr * ptr) :=
  a <- defaultValue (F32.of_Z (-3)) ;;
  b <- defaultValue (F32.of_Z 2) ;;
  c <- sub a b ;;
  reverse c ;;
  ret (a, b, c).

(** ** Notions used by the specifications *)

(** A heap with every gradient erased: what a reverse pass cannot change. *)
Definition shape (h : heap) : heap := with_grad F32.zero <$> h.

(** The arity that the function behind a [reverse] pointer relies on. *)
Definition arity (f : option revfn) : nat :=
  match f with
  | None => 0
  | Some relu_reverse_fn => 1
  | Some _ => 2
  end.

(** Heaps built by the operators: operands are older than the node that
    uses them, [n_children] is the length of the operand array, and the
    array is as long as the gradient rule needs. *)
Definition wf (h : heap) : Prop :=
  forall p v, h !! p = Some v ->
    Forall (fun c => c < p) (children v) /\
    n_children v = length (children v) /\
    arity (v_reverse v) <= length (children v).

(** Total correctness of a heap action under an invariant. *)
Definition hoare {A} (I : heap -> Prop) (m : M A) (Q : A -> Prop) : Prop :=
  forall h, I h -> exists a h', m h = Ok (a, h') /\ I h' /\ Q a.

(** The invariant of the loop of [reverse]: the shape [s] of the heap is
    fixed and so are all nodes from [bound] on. *)
Definition inv (s : heap) (bound : ptr) (t : heap) (h : heap) : Prop :=
  shape h = s /\ drop bound h = t.

(** [gradient h p]: the accessor for [p->grad]. *)
Definition gradient (h : heap) (p : ptr) : option F32.t := grad <$> h !! p.
(** [value h p]: the accessor for [p->data]. *)
Definition value (h : heap) (p : ptr) : option F32.t := data <$> h !! p.

(** [g] lies in the clipping range [[-10, 10]]. *)
Definition in_range (g : F32.t) : bool :=
  F32.leb MIN_RANGE g && F32.leb g MAX_RANGE.

(** ** Nodes, frames and the programs of the scenarios *)

(** A node as [defaultValue] leaves it. *)
Definition leaf_node (x : F32.t) : Value := mkValue x F32.zero [] 0 None.

(** The node that [add], [mul] and [pwr] leave at the fresh address. *)
Definition binary_node (d : F32.t) (a b : ptr) (f : revfn) : Value :=
  mkValue d F32.zero [a; b] 2 (Some f).

(** A node without operands and without a gradient rule. *)
Definition is_leaf (h : heap) (p : ptr) : Prop :=
  exists v, h !! p = Some v /\ n_children v = 0 /\ v_reverse v = None.

(** What a call of [build_dag] on [val] leaves in the buffers: both only
    grow, and every entry added to [dag] is [val] or older. *)
Definition dag_grows (val : ptr) (dag visited : list ptr)
    (r : result (list ptr * list ptr)) : Prop :=
  r = Err Overflow \/
  exists l l', r = Ok (dag ++ l, visited ++ l') /\ Forall (fun p => p <= val) l.

(** [m] keeps the shape of the heap whenever it returns. *)
Definition keeps_shape {A} (m : M A) : Prop :=
  forall h a h', m h = Ok (a, h') -> shape h' = shape h.

(** Every old node is still there with all its fields. *)
Definition unchanged (h h' : heap) : Prop :=
  forall p v, h !! p = Some v -> h' !! p = Some v.

(** The same nodes with the same [data], [children], [n_children] and
    [reverse] fields: at most [grad] fields differ. *)
Definition same_graph (h h' : heap) : Prop :=
  length h' = length h /\
  forall p v, h !! p = Some v ->
    exists v', h' !! p = Some v' /\
      data v' = data v /\ children v' = children v /\
      n_children v' = n_children v /\ v_reverse v' = v_reverse v.

(** A gradient as [grad_clip] leaves it: in the range, or NaN. *)
Definition clamped (g : F32.t) : Prop :=
  F32.is_nan g = true \/ in_range g = true.

(** The last four statements of [add_reverse], [mul_reverse] and
    [pwr_reverse]. *)
Definition clip_operands (c : ptr) : M unit :=
  c0 <- get_child c 0 ;; grad_clip c0 ;;
  c1 <- get_child c 1 ;; grad_clip c1.

(** Whenever [m] returns, it has ended with a run of [t], and what came
    before [t] kept the shape of the heap. *)
Definition ends_with (m t : M unit) : Prop :=
  forall h h', m h = Ok (tt, h') ->
    exists h1, shape h1 = shape h /\ t h1 = Ok (tt, h').

(** The composition that the specification gives for [divide]:
    [multiply(a, power(b, leaf(-1)))]. *)
Definition divide_spec (a b : ptr) : M ptr :=
  e <- defaultValue (F32.of_Z (-1)) ;;
  r <- pwr b e ;;
  mul a r.

(** [x = leaf(v); c = add(x, x); reverse(c)], returning [x->grad]. *)
Definition shared_add (v : F32.t) : M F32.t :=
  x <- defaultValue v ;;
  c <- add x x ;;
  reverse c ;;
  get_grad x.

(** [x = leaf(v); c = add(x, x)] and the buffers that [reverse(c)] gets
    from [build_dag]. *)
Definition shared_add_dag (v : F32.t) : result (list ptr * list ptr) :=
  match (x <- defaultValue v ;; add x x) [] with
  | Ok (c, h) => build_dag (S (length h)) h c [] []
  | Err e => Err e
  end.

(** [n] calls of [reverse(c)]. *)
Fixpoint reverse_times (n : nat) (c : ptr) : M unit :=
  match n with
  | 0 => ret tt
  | S n' => reverse c ;; reverse_times n' c
  end.

(** [a = leaf(va); b = leaf(vb); c = add(a, b)], then [n] calls of
    [reverse(c)], returning [a->grad] and [b->grad]. *)
Definition add_passes (n : nat) (va vb : F32.t) : M (F32.t * F32.t) :=
  a <- defaultValue va ;;
  b <- defaultValue vb ;;
  c <- add a b ;;
  reverse_times n c ;;
  ga <- get_grad a ;;
  gb <- get_grad b ;;
  ret (ga, gb).

(** What one pass from an [add] root does to the gradient [g] that an
    operand holds: [grad += 1], then the clamp. *)
Definition accumulate (g : F32.t) : F32.t := clip (F32.add g F32.one).

(** The four nodes of [s = add(x, y); r = relu(s)] over leaves [x] and
    [y], laid out from address [n] on, with any [data] and with any
    gradients [gx], [gy], [gs] and [gr], such as earlier passes leave. *)
Definition relu_add_graph (n : ptr) (dx dy ds dr gx gy gs gr : F32.t) : list Value :=
  [ mkValue dx gx [] 0 None;
    mkValue dy gy [] 0 None;
    mkValue ds gs [n; n + 1] 2 (Some add_reverse_fn);
    mkValue dr gr [n + 2] 1 (Some relu_reverse_fn) ].

(** [x = leaf(vx); y = leaf(vy); s = add(x, y); r = relu(s)], then [n]
    calls of [reverse(r)], returning [x->grad], [y->grad] and [s->grad]. *)
Definition relu_add_passes (n : nat) (vx vy : F32.t) : M (F32.t * F32.t * F32.t) :=
  x <- defaultValue vx ;;
  y <- defaultValue vy ;;
  s <- add x y ;;
  r <- relu s ;;
  reverse_times n r ;;
  gx <- get_grad x ;;
  gy <- get_grad y ;;
  gs <- get_grad s ;;
  ret (gx, gy, gs).

(** [a = leaf(x); r = relu(a)], returning [r->data]. *)
Definition relu_forward (x : F32.t) : M F32.t :=
  a <- defaultValue x ;;
  r <- relu a ;;
  get_data r.

(** [a = leaf(x); r = relu(a); reverse(r)], returning [a->grad]. *)
Definition relu_pass (x : F32.t) : M F32.t :=
  a <- defaultValue x ;;
  r <- relu a ;;
  reverse r ;;
  get_grad a.

(** [a = leaf(va); b = leaf(vb); c = pwr(a, b); reverse(c)], returning [b->grad]. *)
Definition pwr_pass (va vb : F32.t) : M F32.t :=
  a <- defaultValue va ;;
  b <- defaultValue vb ;;
  c <- pwr a b ;;
  reverse c ;;
  get_grad b.

(** [n] doublings [x_(k+1) = add(x_k, x_k)] on top of [x]. *)
Fixpoint add_chain (n : nat) (x : ptr) : M ptr :=
  match n with
  | 0 => ret x
  | S n' => y <- add x x ;; add_chain n' y
  end.

(** The gradient of the leaf below a chain of [n] doublings. *)
Definition chain_demo (n : nat) : M F32.t :=
  x <- defaultValue F32.one ;;
  r <- add_chain n x ;;
  reverse r ;;
  get_grad x.

(** [x = leaf(1); s = relu(x); m = add(s, s); r = relu(m); reverse(r)]. *)
Definition double_visit_demo : M (F32.t) :=
  x <- defaultValue F32.one ;;
  s <- relu x ;;
  m <- add s s ;;
  r <- relu m ;;
  reverse r ;;
  get_grad x.

(** A pass whose gradients meet a NaN: [s] holds [inf * 0]. *)
Definition nan_demo : M (F32.t * F32.t) :=
  l <- defaultValue (S754_finite false 8388608 104) ;;
  p <- mul l l ;;
  z <- defaultValue F32.zero ;;
  s <- mul p z ;;
  u <- defaultValue F32.one ;;
  v <- defaultValue F32.one ;;
  w <- add u v ;;
  root <- mul w s ;;
  reverse root ;;
  gw <- get_grad w ;;
  gu <- get_grad u ;;
  ret (gw, gu).

(** ** Reachability and order in the buffers of [build_dag] *)

(** [c] is one of the operands [p->children[0 .. n_children-1]]. *)
Definition child_of (h : heap) (p c : ptr) : Prop :=
  exists v i, h !! p = Some v /\ i < n_children v /\ children v !! i = Some c.

(** [p] is [root] or an operand of an operand ... of [root]. *)
Definition reach (h : heap) : ptr -> ptr -> Prop := rtc (child_of h).

(** Every entry of [dag] has all operands of its node before it. *)
Definition ordered (h : heap) (dag : list ptr) : Prop :=
  forall i p c, dag !! i = Some p -> child_of h p c -> c ∈ take i dag.

(** Every node that was entered is emitted or still being worked on. *)
Definition entered (stack dag visited : list ptr) : Prop :=
  forall q, q ∈ visited -> q ∈ dag \/ q ∈ stack.

(** The entries that a call adds: the same nodes in both buffers, all
    of them reachable from [val]. *)
Definition dag_added (h : heap) (val : ptr) (dag visited dag' visited' : list ptr) : Prop :=
  exists l l', dag' = dag ++ l /\ visited' = visited ++ l' /\
               l ≡ₚ l' /\ Forall (reach h val) l.

(** The calls of one run of [build_dag] that got past the membership
    loop, as a tree: a call on [p] with the calls that its loop over
    [p->children] made in turn, first to last. *)
#[warnings="-register-all"]
Inductive calls := Call (p : ptr) (made : list calls).

Definition callee (t : calls) : ptr := match t with Call p _ => p end.

(** The nodes of a tree of calls in the order in which the calls were
    entered, and in the order in which they returned. *)
Fixpoint entry_order (t : calls) : list ptr :=
  match t with Call p ts => p :: flat_map entry_order ts end.

Fixpoint exit_order (t : calls) : list ptr :=
  match t with Call p ts => flat_map exit_order ts ++ [p] end.

(** A tree of calls follows the graph: the calls made by a call on [p]
    are on operands of [p], in the order of [p->children]. *)
Fixpoint calls_in (h : heap) (t : calls) : Prop :=
  match t with
  | Call p ts =>
    (exists v cs, h !! p = Some v /\ operands v = Ok cs /\ sublist (callee <$> ts) cs) /\
    (fix all (ts : list calls) : Prop :=
       match ts with
       | [] => True
       | t :: ts' => calls_in h t /\ all ts'
       end) ts
  end.

(** ** The footprint of a heap action *)

(** Whenever [m] returns on a heap of shape [s], the heap still has that
    shape, every node outside [P] is as it was, and the result is in [Q]. *)
Definition triple {A} (s : heap) (P : ptr -> Prop) (m : M A) (Q : A -> Prop) : Prop :=
  forall h a h', shape h = s -> m h = Ok (a, h') ->
    shape h' = s /\ (forall p, ~ P p -> h' !! p = h !! p) /\ Q a.

(** [q] is [c->children[i]] in a heap of shape [s]. *)
Definition operand_at (s : heap) (c : ptr) (i : nat) (q : ptr) : Prop :=
  exists sv, s !! c = Some sv /\ children sv !! i = Some q.

(** [q] is one of the operands that the rule [f], called on [c], updates. *)
Definition operand_of (s : heap) (f : revfn) (c q : ptr) : Prop :=
  exists i, i < arity (Some f) /\ operand_at s c i q.

(** [q] is an operand that the rule stored in [c] updates. *)
Definition updated_by (s : heap) (c q : ptr) : Prop :=
  exists sv f, s !! c = Some sv /\ v_reverse sv = Some f /\ operand_of s f c q.

(** Every gradient of the heap is clamped. *)
Definition all_clamped (h : heap) : Prop := Forall (fun v => clamped (grad v)) h.

(** ** More programs *)

(** [a = leaf(va); b = leaf(vb); c = mul(a, b); reverse(c)], returning
    [a->grad] and [b->grad]. *)
Definition mul_pass (va vb : F32.t) : M (F32.t * F32.t) :=
  a <- defaultValue va ;;
  b <- defaultValue vb ;;
  c <- mul a b ;;
  reverse c ;;
  ga <- get_grad a ;;
  gb <- get_grad b ;;
  ret (ga, gb).

(** [x = leaf(v); c = mul(x, x); reverse(c)], returning [x->grad]. *)
Definition square_pass (v : F32.t) : M F32.t :=
  x <- defaultValue v ;;
  c <- mul x x ;;
  reverse c ;;
  get_grad x.

(** [a = leaf(va); b = leaf(vb); c = sub(a, b); reverse(c)], returning
    [c->data], [a->grad] and [b->grad]. *)
Definition sub_pass (va vb : F32.t) : M (F32.t * F32.t * F32.t) :=
  a <- defaultValue va ;;
  b <- defaultValue vb ;;
  c <- sub a b ;;
  reverse c ;;
  dc <- get_data c ;;
  ga <- get_grad a ;;
  gb <- get_grad b ;;
  ret (dc, ga, gb).

(** [a = leaf(va); b = leaf(vb); c = pwr(a, b); reverse(c)], returning [a->grad]. *)
Definition pwr_base_pass (va vb : F32.t) : M F32.t :=
  a <- defaultValue va ;;
  b <- defaultValue vb ;;
  c <- pwr a b ;;
  reverse c ;;
  get_grad a.

(** ** [free_node] *)

(** The loop of [free_node], from index [i] on. The model keeps, in call
    order, the pointers passed to [free]; the operand pointers stored by
    the operators are never [NULL], so the test [if (val->children[i])]
    is taken. The bound [val->n_children] is read again before every
    iteration, after the body has decremented it. *)
Fixpoint free_children (fuel : nat) (val : ptr) (i : nat) (freed : list ptr)
    : M (list ptr) :=
  match fuel with
  | 0 => fun _ => Err OutOfFuel
  | S fuel' =>
    v <- load val ;;
    if i <? n_children v then
      c <- get_child val i ;;
      v' <- load val ;;
      set_n_children val (n_children v' - 1) ;;
      free_children fuel' val (S i) (freed ++ [c])
    else ret freed
  end.

(** [free_node]: the loop, then [free(val)]. The loop cannot run more
    often than [val->n_children] is at the start. *)
Definition free_node (val : ptr) : M (list ptr) :=
  v <- load val ;;
  freed <- free_children (S (n_children v)) val 0 [] ;;
  ret (freed ++ [val]).

(** [free_node(p1); free_node(p2)], returning all pointers passed to
    [free], in call order. *)
Definition free_two (p1 p2 : ptr) : M (list ptr) :=
  f1 <- free_node p1 ;;
  f2 <- free_node p2 ;;
  ret (f1 ++ f2).

(** ** Concrete inputs *)

(** A math library for the examples: the reciprocal for the exponent -1,
    which is all that [divide] asks of [powf]; the graphs below never
    reach [pow] and [log]. *)
Definition libm_powf (x y : F32.t) : F32.t :=
  if F32.eqb y (F32.of_Z (-1)) then SFdiv F32.prec F32.emax F32.one x else F32.nan.
Definition libm_pow (x y : F64.t) : F64.t := S754_nan.
Definition libm_log (x : F64.t) : F64.t := S754_nan.

(** [r = relu(a)] over the leaf [a = 2], with gradient 1 in [r]. *)
Definition relu_heap : heap :=
  [leaf_node (F32.of_Z 2);
   mkValue (F32.of_Z 2) F32.one [0] 1 (Some relu_reverse_fn)].

(** [c = add(a, b)] with gradient 10 already in [a] and gradient 1 in [c]. *)
Definition add_heap : heap :=
  [with_grad MAX_RANGE (leaf_node F32.one);
   leaf_node F32.one;
   with_grad F32.one (binary_node F32.two 0 1 add_reverse_fn)].

(** The leaves 6 and 2. *)
Definition two_leaves : heap := [leaf_node (F32.of_Z 6); leaf_node (F32.of_Z 2)].

(** The heap of [main] with gradients left by earlier passes, 10 in the root. *)
Definition used_heap : heap :=
  [with_grad F32.one (leaf_node (F32.of_Z (-3)));
   leaf_node (F32.of_Z 2);
   with_grad F32.one (leaf_node (F32.of_Z (-2)));
   with_grad MAX_RANGE (binary_node (F32.of_Z (-5)) 0 2 add_reverse_fn)].

(** [c = mul(a, b)] over the leaves [a = 3] and [b = 4], with gradient 1 in [c]. *)
Definition mul_heap : heap :=
  [leaf_node (F32.of_Z 3);
   leaf_node (F32.of_Z 4);
   with_grad F32.one (binary_node (F32.of_Z 12) 0 1 mul_reverse_fn)].

(** [add(x, y)] and [mul(x, y)] over the same two leaves. *)
Definition shared_heap : heap :=
  [leaf_node (F32.of_Z 6); leaf_node (F32.of_Z 2);
   binary_node (F32.of_Z 8) 0 1 add_reverse_fn;
   binary_node (F32.of_Z 12) 0 1 mul_reverse_fn].

(** ** The heap monad *)

Lemma hoare_ret {A} (I : heap -> Prop) (a : A) (Q : A -> Prop) :
  Q a -> hoare I (ret a) Q.
Proof. intros HQ h HI. exists a, h. auto. Qed.

Lemma hoare_bind {A B} (I : heap -> Prop) (m : M A) (k : A -> M B) Q R :
  hoare I m Q -> (forall a, Q a -> hoare I (k a) R) -> hoare I (bind m k) R.
Proof.
  intros Hm Hk h HI. destruct (Hm h HI) as (a & h1 & E1 & HI1 & HQ).
  destruct (Hk a HQ h1 HI1) as (b & h2 & E2 & HI2 & HR).
  exists b, h2. unfold bind. rewrite E1. auto.
Qed.

Lemma shape_lookup h p : shape h !! p = with_grad F32.zero <$> h !! p.
Proof. unfold shape. apply list_lookup_fmap. Qed.

Lemma shape_length h : length (shape h) = length h.
Proof. unfold shape. apply length_fmap. Qed.

Lemma shape_insert_grad h p v x :
  h !! p = Some v -> shape (<[p := with_grad x v]> h) = shape h.
Proof.
  intros Hp. unfold shape. rewrite list_fmap_insert.
  apply list_insert_id. rewrite list_lookup_fmap, Hp. reflexivity.
Qed.

Lemma inv_lookup s bound t h p sv :
  inv s bound t h -> s !! p = Some sv ->
  exists v, h !! p = Some v /\ with_grad F32.zero v = sv.
Proof.
  intros [Hs _] Hp. subst s. rewrite shape_lookup in Hp.
  destruct (h !! p) as [v|]; simplify_eq/=. eauto.
Qed.

Lemma hoare_load s bound t p sv :
  s !! p = Some sv ->
  hoare (inv s bound t) (load p) (fun v => with_grad F32.zero v = sv).
Proof.
  intros Hp h HI. destruct (inv_lookup _ _ _ _ _ _ HI Hp) as (v & Hv & Hsv).
  exists v, h. unfold load. rewrite Hv. auto.
Qed.

Lemma hoare_get_grad s bound t p :
  p < length s -> hoare (inv s bound t) (get_grad p) (fun _ => True).
Proof.
  intros Hp. destruct (lookup_lt_is_Some_2 s p Hp) as [sv Hsv].
  unfold get_grad. eapply hoare_bind; [ apply (hoare_load _ _ _ _ _ Hsv) | ].
  intros v _. apply hoare_ret. exact I.
Qed.

Lemma hoare_get_data s bound t p :
  p < length s -> hoare (inv s bound t) (get_data p) (fun _ => True).
Proof.
  intros Hp. destruct (lookup_lt_is_Some_2 s p Hp) as [sv Hsv].
  unfold get_data. eapply hoare_bind; [ apply (hoare_load _ _ _ _ _ Hsv) | ].
  intros v _. apply hoare_ret. exact I.
Qed.

Lemma hoare_get_child s bound t p i sv c :
  s !! p = Some sv -> children sv !! i = Some c ->
  hoare (inv s bound t) (get_child p i) (fun a => a = c).
Proof.
  intros Hp Hc. unfold get_child.
  eapply hoare_bind; [ apply (hoare_load _ _ _ _ _ Hp) | ].
  intros v Hv h HI. simpl in Hv. subst sv. simpl in Hc. rewrite Hc. eauto.
Qed.

Lemma hoare_set_grad s bound t p x :
  p < length s -> p < bound -> hoare (inv s bound t) (set_grad p x) (fun _ => True).
Proof.
  intros Hp Hb h [Hs Ht]. unfold set_grad, modify.
  assert (is_Some (h !! p)) as [v Hv].
  { apply lookup_lt_is_Some_2. rewrite <- shape_length, Hs. exact Hp. }
  rewrite Hv. eexists tt, _. split; [reflexivity |]. split; [| exact I].
  split.
  - rewrite (shape_insert_grad _ _ _ _ Hv). exact Hs.
  - rewrite drop_insert_lt by exact Hb. exact Ht.
Qed.

Lemma hoare_grad_clip s bound t p :
  p < length s -> p < bound -> hoare (inv s bound t) (grad_clip p) (fun _ => True).
Proof.
  intros Hp Hb. unfold grad_clip.
  eapply hoare_bind; [ apply hoare_get_grad; exact Hp | ].
  intros g _. destruct (F32.ltb g MIN_RANGE); [ apply hoare_set_grad; assumption | ].
  destruct (F32.gtb g MAX_RANGE); [ apply hoare_set_grad; assumption | ].
  apply hoare_ret. exact I.
Qed.

(** ** Well-formed heaps *)

Lemma wf_shape h : wf h <-> wf (shape h).
Proof.
  split; intros H p v Hp.
  - rewrite shape_lookup in Hp. destruct (h !! p) as [w|] eqn:Hw; simplify_eq/=.
    apply (H p w Hw).
  - apply (H p (with_grad F32.zero v)). rewrite shape_lookup, Hp. reflexivity.
Qed.

Lemma wf_children s p sv i c :
  wf s -> s !! p = Some sv -> children sv !! i = Some c -> c < p /\ c < length s.
Proof.
  intros H Hp Hc. destruct (H p sv Hp) as (Hlt & _ & _).
  pose proof (Forall_lookup_1 _ _ _ _ Hlt Hc) as Hcp. simpl in Hcp.
  pose proof (lookup_lt_Some _ _ _ Hp). lia.
Qed.

Lemma wf_arity s p sv i :
  wf s -> s !! p = Some sv -> i < arity (v_reverse sv) ->
  exists c, children sv !! i = Some c /\ c < p /\ c < length s.
Proof.
  intros H Hp Hi. destruct (H p sv Hp) as (_ & _ & Har).
  destruct (lookup_lt_is_Some_2 (children sv) i) as [c Hc]; [lia |].
  exists c. split; [exact Hc |]. eapply wf_children; eassumption.
Qed.

(** ** The gradient rules keep the invariant *)

Ltac hoare_prim :=
  first
    [ eapply hoare_get_child; eassumption
    | apply hoare_get_grad; lia
    | apply hoare_get_data; lia
    | apply hoare_set_grad; lia
    | apply hoare_grad_clip; lia
    | apply hoare_ret; exact I ].

Ltac hoare_step :=
  first
    [ hoare_prim
    | eapply hoare_bind; [ hoare_prim | intros ? ?; simpl in *; subst ] ].

Lemma hoare_add_reverse s bound t p sv :
  wf s -> s !! p = Some sv -> v_reverse sv = Some add_reverse_fn -> p <= bound ->
  hoare (inv s bound t) (add_reverse p) (fun _ => True).
Proof.
  intros Hwf Hp Hf Hb.
  destruct (wf_arity s p sv 0 Hwf Hp) as (c0 & Hc0 & ? & ?); [rewrite Hf; simpl; lia |].
  destruct (wf_arity s p sv 1 Hwf Hp) as (c1 & Hc1 & ? & ?); [rewrite Hf; simpl; lia |].
  pose proof (lookup_lt_Some _ _ _ Hp).
  unfold add_reverse. repeat hoare_step.
Qed.

Lemma hoare_mul_reverse s bound t p sv :
  wf s -> s !! p = Some sv -> v_reverse sv = Some mul_reverse_fn -> p <= bound ->
  hoare (inv s bound t) (mul_reverse p) (fun _ => True).
Proof.
  intros Hwf Hp Hf Hb.
  destruct (wf_arity s p sv 0 Hwf Hp) as (c0 & Hc0 & ? & ?); [rewrite Hf; simpl; lia |].
  destruct (wf_arity s p sv 1 Hwf Hp) as (c1 & Hc1 & ? & ?); [rewrite Hf; simpl; lia |].
  pose proof (lookup_lt_Some _ _ _ Hp).
  unfold mul_reverse. repeat hoare_step.
Qed.

Lemma hoare_relu_reverse s bound t p sv :
  wf s -> s !! p = Some sv -> v_reverse sv = Some relu_reverse_fn -> p <= bound ->
  hoare (inv s bound t) (relu_reverse p) (fun _ => True).
Proof.
  intros Hwf Hp Hf Hb.
  destruct (wf_arity s p sv 0 Hwf Hp) as (c0 & Hc0 & ? & ?); [rewrite Hf; simpl; lia |].
  pose proof (lookup_lt_Some _ _ _ Hp).
  unfold relu_reverse. repeat hoare_step.
Qed.

Lemma hoare_pwr_reverse s bound t p sv :
  wf s -> s !! p = Some sv -> v_reverse sv = Some pwr_reverse_fn -> p <= bound ->
  hoare (inv s bound t) (pwr_reverse p) (fun _ => True).
Proof.
  intros Hwf Hp Hf Hb.
  destruct (wf_arity s p sv 0 Hwf Hp) as (c0 & Hc0 & ? & ?); [rewrite Hf; simpl; lia |].
  destruct (wf_arity s p sv 1 Hwf Hp) as (c1 & Hc1 & ? & ?); [rewrite Hf; simpl; lia |].
  pose proof (lookup_lt_Some _ _ _ Hp).
  unfold pwr_reverse. repeat hoare_step.
  eapply hoare_bind.
  { match goal with
    | |- hoare _ (if ?b then _ else _) _ => destruct b
    end; repeat hoare_step. }
  intros ? ?. repeat hoare_step.
Qed.

Lemma hoare_reverse_step s bound t p :
  wf s -> p < length s -> p <= bound ->
  hoare (inv s bound t) (reverse_step p) (fun _ => True).
Proof.
  intros Hwf Hp Hb. destruct (lookup_lt_is_Some_2 s p Hp) as [sv Hsv].
  unfold reverse_step.
  eapply hoare_bind; [ apply (hoare_load _ _ _ _ _ Hsv) | ].
  intros v Hv. simpl in Hv. subst sv. simpl.
  destruct (v_reverse v) as [f|] eqn:Hf; [| apply hoare_ret; exact I].
  destruct f; simpl.
  - eapply hoare_add_reverse; eauto.
  - eapply hoare_mul_reverse; eauto.
  - eapply hoare_pwr_reverse; eauto.
  - eapply hoare_relu_reverse; eauto.
Qed.

Lemma hoare_reverse_loop s bound t l :
  wf s -> Forall (fun p => p < length s /\ p <= bound) l ->
  hoare (inv s bound t) (reverse_loop l) (fun _ => True).
Proof.
  intros Hwf Hl. induction Hl as [| p l [Hp Hb] _ IH]; simpl.
  - apply hoare_ret. exact I.
  - eapply hoare_bind; [ apply hoare_reverse_step; assumption | ].
    intros _ _. exact IH.
Qed.

(** ** [build_dag] on a well-formed heap *)

Lemma foldl_rbind_Err {A B} (f : A -> B -> result A) (e : error) (l : list B) :
  foldl (fun acc c => rbind acc (fun st => f st c)) (Err e) l = Err e.
Proof. induction l as [| c l IH]; simpl; auto. Qed.

Lemma operands_wf h p v :
  wf h -> h !! p = Some v -> operands v = Ok (children v).
Proof.
  intros H Hp. destruct (H p v Hp) as (_ & Hn & _). unfold operands.
  rewrite Hn, Nat.leb_refl, firstn_all. reflexivity.
Qed.

Lemma build_dag_children fuel h val dag visited cs :
  (forall c dag visited, c < val ->
     dag_grows c dag visited (build_dag fuel h c dag visited)) ->
  Forall (fun c => c < val) cs ->
  forall l l', Forall (fun p => p <= val) l ->
  dag_grows val dag visited
    (foldl (fun acc c => rbind acc (fun st => build_dag fuel h c (fst st) (snd st)))
           (Ok (dag ++ l, visited ++ l')) cs).
Proof.
  intros IH Hcs. induction Hcs as [| c cs Hc _ IHcs]; intros l l' Hl; simpl.
  - right. eauto.
  - destruct (IH c (dag ++ l) (visited ++ l') Hc) as [E | (l2 & l2' & E & Hl2)];
      rewrite E.
    + left. apply foldl_rbind_Err.
    + rewrite <- !app_assoc. apply IHcs. apply Forall_app. split; [exact Hl |].
      eapply Forall_impl; [exact Hl2 |]. simpl. intros; lia.
Qed.

Lemma build_dag_S fuel h val dag visited :
  build_dag (S fuel) h val dag visited =
  if existsb (Nat.eqb val) (take (length dag) visited) then Ok (dag, visited)
  else if MAX_DAG_SIZE <=? length visited then Err Overflow
  else
    match h !! val with
    | None => Err Fault
    | Some v =>
      rbind (operands v) (fun cs =>
      rbind (foldl (fun acc c =>
                      rbind acc (fun st => build_dag fuel h c (fst st) (snd st)))
                   (Ok (dag, visited ++ [val])) cs) (fun st =>
      if MAX_DAG_SIZE <=? length (fst st) then Err Overflow
      else Ok (fst st ++ [val], snd st)))
    end.
Proof. reflexivity. Qed.

Lemma build_dag_wf h :
  wf h -> forall fuel val dag visited, val < fuel -> val < length h ->
  dag_grows val dag visited (build_dag fuel h val dag visited).
Proof.
  intros Hwf. induction fuel as [| fuel IH]; intros val dag visited Hfuel Hval; [lia |].
  rewrite build_dag_S. destruct (existsb _ _).
  { right. exists [], []. rewrite !app_nil_r. auto. }
  destruct (MAX_DAG_SIZE <=? length visited); [left; reflexivity |].
  destruct (lookup_lt_is_Some_2 h val Hval) as [v Hv]. rewrite Hv.
  rewrite (operands_wf h val v Hwf Hv). cbn [rbind].
  destruct (Hwf val v Hv) as (Hlt & _ & _).
  destruct (build_dag_children fuel h val dag (visited ++ [val]) (children v))
    with (l := @nil nat) (l' := @nil nat) as [E | (l & l' & E & Hl)]; auto.
  { intros c dag' visited' Hc. apply IH; lia. }
  - rewrite !app_nil_r in E. rewrite E. left. reflexivity.
  - rewrite !app_nil_r in E. rewrite E. cbn [rbind fst snd].
    destruct (MAX_DAG_SIZE <=? length (dag ++ l)); [left; reflexivity |].
    right. exists (l ++ [val]), ([val] ++ l'). rewrite <- !app_assoc.
    split; [reflexivity |]. apply Forall_app. split; [exact Hl |].
    constructor; [lia | constructor].
Qed.

(** ** [reverse] on a well-formed heap *)

(** On a heap built by the operators a reverse pass either runs to the
    end or needs more than [MAX_DAG_SIZE] buffer slots. When it runs to
    the end, no field but [grad] has changed anywhere and the root is
    left with its seed. *)
Lemma reverse_wf h root :
  wf h -> root < length h ->
  reverse root h = Err Overflow \/
  exists h', reverse root h = Ok (tt, h') /\
             shape h' = shape h /\
             h' !! root = with_grad F32.one <$> h !! root.
Proof.
  intros Hwf Hroot. unfold reverse.
  destruct (build_dag_wf h Hwf (S (length h)) root [] []) as [E | (l & l' & E & Hl)];
    [lia | assumption | rewrite E; left; reflexivity |].
  rewrite E. simpl. right.
  destruct (lookup_lt_is_Some_2 h root Hroot) as [v Hv].
  unfold bind at 1. unfold set_grad, modify. rewrite Hv.
  set (h1 := <[root := with_grad F32.one v]> h).
  destruct (hoare_reverse_loop (shape h) root (drop root h1) (rev l)) with (h := h1)
    as (a & h' & E' & [Hs Ht] & _).
  - apply (proj1 (wf_shape h)). exact Hwf.
  - apply Forall_rev. eapply Forall_impl; [exact Hl |]. simpl.
    intros p Hp. rewrite shape_length. lia.
  - split; [| reflexivity]. apply shape_insert_grad. exact Hv.
  - destruct a. exists h'. split; [exact E' |]. split; [exact Hs |].
    pose proof (lookup_drop h' root 0) as H1. rewrite Ht, lookup_drop in H1.
    rewrite Nat.add_0_r in H1. rewrite <- H1. unfold h1.
    rewrite list_lookup_insert_eq by exact Hroot. reflexivity.
Qed.

(** ** Running heap actions on a heap [h ++ l]

    The nodes of a computation are laid out after an arbitrary older
    heap [h]; its [i]-th node has address [length h + i]. *)

Lemma lookup_app_plus {A} (h l : list A) i : (h ++ l) !! (length h + i) = l !! i.
Proof. rewrite lookup_app_r by lia. f_equal. lia. Qed.

Lemma load_app h l i :
  load (length h + i) (h ++ l) =
  match l !! i with
  | Some v => Ok (v, h ++ l)
  | None => Err Fault
  end.
Proof. unfold load. rewrite lookup_app_plus. reflexivity. Qed.

Lemma modify_app h l i f :
  modify (length h + i) f (h ++ l) =
  match l !! i with
  | Some v => Ok (tt, h ++ <[i := f v]> l)
  | None => Err Fault
  end.
Proof.
  unfold modify. rewrite lookup_app_plus. destruct (l !! i); [| reflexivity].
  rewrite insert_app_r. reflexivity.
Qed.

Lemma load_old h l p v : h !! p = Some v -> load p (h ++ l) = Ok (v, h ++ l).
Proof. intros Hp. unfold load. rewrite (lookup_app_l_Some _ _ _ _ Hp). reflexivity. Qed.

(** ** The operators allocate and initialise one node *)

Ltac run_alloc Ha Hb :=
  unfold bind, get_data, bind, ret, defaultValue;
  rewrite ?(load_old _ _ _ _ Ha), ?(load_old _ _ _ _ Hb);
  unfold set_data, set_grad, set_children, set_n_children, set_reverse;
  rewrite <- (Nat.add_0_r (length _));
  repeat (rewrite modify_app; cbn [lookup list_lookup insert list_insert]);
  rewrite Nat.add_0_r; reflexivity.

Lemma add_run h a b va vb :
  h !! a = Some va -> h !! b = Some vb ->
  add a b h =
  Ok (length h, h ++ [binary_node (F32.add (data va) (data vb)) a b add_reverse_fn]).
Proof. intros Ha Hb. unfold add. run_alloc Ha Hb. Qed.

Lemma mul_run h a b va vb :
  h !! a = Some va -> h !! b = Some vb ->
  mul a b h =
  Ok (length h, h ++ [binary_node (F32.mul (data va) (data vb)) a b mul_reverse_fn]).
Proof. intros Ha Hb. unfold mul. run_alloc Ha Hb. Qed.

Lemma pwr_run h a b va vb :
  h !! a = Some va -> h !! b = Some vb ->
  pwr a b h =
  Ok (length h, h ++ [binary_node (powf (data va) (data vb)) a b pwr_reverse_fn]).
Proof. intros Ha Hb. unfold pwr. run_alloc Ha Hb. Qed.

Lemma relu_run h a va :
  h !! a = Some va ->
  relu a h =
  Ok (length h,
      h ++ [mkValue (if F32.gtb (data va) F32.zero then data va else F32.zero)
                    F32.zero [a] 1 (Some relu_reverse_fn)]).
Proof. intros Ha. unfold relu. run_alloc Ha Ha. Qed.

Lemma defaultValue_run x h : defaultValue x h = Ok (length h, h ++ [leaf_node x]).
Proof. reflexivity. Qed.

Lemma sub_run h a b va vb :
  h !! a = Some va -> h !! b = Some vb ->
  sub a b h =
  Ok (S (length h),
      h ++ [leaf_node (F32.neg (data vb));
            binary_node (F32.add (data va) (F32.neg (data vb))) a (length h)
                        add_reverse_fn]).
Proof.
  intros Ha Hb. unfold sub, bind at 1, get_data, bind at 1, load. rewrite Hb.
  unfold ret, bind. rewrite defaultValue_run.
  rewrite (add_run _ a (length h) va (leaf_node (F32.neg (data vb)))).
  - rewrite length_app, <- app_assoc. simpl. repeat f_equal. lia.
  - apply lookup_app_l_Some. exact Ha.
  - apply list_lookup_middle. reflexivity.
Qed.

Lemma divide_run h a b va vb :
  h !! a = Some va -> h !! b = Some vb ->
  divide a b h =
  Ok (S (S (length h)),
      h ++ [leaf_node (F32.of_Z (-1));
            binary_node (powf (data vb) (F32.of_Z (-1))) b (length h) pwr_reverse_fn;
            binary_node (F32.mul (data va) (powf (data vb) (F32.of_Z (-1))))
                        a (S (length h)) mul_reverse_fn]).
Proof.
  intros Ha Hb. unfold divide, bind. rewrite defaultValue_run.
  rewrite (pwr_run _ b (length h) vb (leaf_node (F32.of_Z (-1)))).
  - rewrite (mul_run _ a _ va
               (binary_node (powf (data vb) (F32.of_Z (-1))) b (length h) pwr_reverse_fn)).
    + rewrite !length_app, <- !app_assoc. simpl. repeat f_equal; lia.
    + apply lookup_app_l_Some, lookup_app_l_Some. exact Ha.
    + apply list_lookup_middle. reflexivity.
  - apply lookup_app_l_Some. exact Hb.
  - apply list_lookup_middle. reflexivity.
Qed.

(** ** The operators build well-formed heaps *)








(** ** A reverse pass writes gradients only *)

Lemma keeps_ret {A} (a : A) : keeps_shape (ret a).
Proof. intros h b h' E. inversion E. reflexivity. Qed.

Lemma keeps_bind {A B} (m : M A) (k : A -> M B) :
  keeps_shape m -> (forall a, keeps_shape (k a)) -> keeps_shape (bind m k).
Proof.
  intros Hm Hk h b h' E. unfold bind in E.
  destruct (m h) as [[a h1] | e] eqn:E1; [| discriminate].
  rewrite (Hk a _ _ _ E). apply (Hm _ _ _ E1).
Qed.

Lemma keeps_load p : keeps_shape (load p).
Proof.
  intros h a h' E. unfold load in E. destruct (h !! p); inversion E. reflexivity.
Qed.

Lemma keeps_get_grad p : keeps_shape (get_grad p).
Proof. apply keeps_bind; [apply keeps_load | intros; apply keeps_ret]. Qed.

Lemma keeps_get_data p : keeps_shape (get_data p).
Proof. apply keeps_bind; [apply keeps_load | intros; apply keeps_ret]. Qed.

Lemma keeps_get_child p i : keeps_shape (get_child p i).
Proof.
  apply keeps_bind; [apply keeps_load |].
  intros v h a h' E. destruct (children v !! i); inversion E. reflexivity.
Qed.

Lemma keeps_set_grad p x : keeps_shape (set_grad p x).
Proof.
  intros h a h' E. unfold set_grad, modify in E.
  destruct (h !! p) as [v|] eqn:Hv; inversion E. apply shape_insert_grad. exact Hv.
Qed.

Lemma keeps_grad_clip p : keeps_shape (grad_clip p).
Proof.
  apply keeps_bind; [apply keeps_get_grad |]. intros g.
  destruct (F32.ltb g MIN_RANGE); [apply keeps_set_grad |].
  destruct (F32.gtb g MAX_RANGE); [apply keeps_set_grad | apply keeps_ret].
Qed.

Ltac keeps_step :=
  first
    [ apply keeps_get_child | apply keeps_get_grad | apply keeps_get_data
    | apply keeps_set_grad | apply keeps_grad_clip | apply keeps_ret
    | apply keeps_load
    | apply keeps_bind; [| intros ?]
    | match goal with
      | |- keeps_shape (if ?b then _ else _) => destruct b
      end ].

Lemma keeps_call_reverse f p : keeps_shape (call_reverse f p).
Proof.
  destruct f; simpl;
    [ unfold add_reverse | unfold mul_reverse | unfold pwr_reverse | unfold relu_reverse ];
    repeat keeps_step.
Qed.

Lemma keeps_reverse_loop l : keeps_shape (reverse_loop l).
Proof.
  induction l as [| p l IH]; simpl; [apply keeps_ret |].
  apply keeps_bind; [| intros _; exact IH].
  unfold reverse_step. apply keeps_bind; [apply keeps_load |].
  intros v. destruct (v_reverse v); [apply keeps_call_reverse | apply keeps_ret].
Qed.

Lemma keeps_reverse root : keeps_shape (reverse root).
Proof.
  intros h a h' E. unfold reverse in E.
  destruct (build_dag _ _ _ _ _) as [[dag visited] | e]; [| discriminate].
  revert E. apply keeps_bind; [apply keeps_set_grad |].
  intros _. apply keeps_reverse_loop.
Qed.

(** ** Symbolic execution of the rules *)

Lemma with_grad_id v : with_grad (grad v) v = v.
Proof. destruct v; reflexivity. Qed.

(** [grad_clip] stores the clamped gradient. *)
Lemma grad_clip_modify p h :
  grad_clip p h = modify p (fun v => with_grad (clip (grad v)) v) h.
Proof.
  unfold grad_clip, bind, get_grad, bind, load, ret, set_grad, modify, clip.
  destruct (h !! p) as [v|] eqn:Hv; [| reflexivity].
  destruct (F32.ltb (grad v) MIN_RANGE); [rewrite Hv; reflexivity |].
  destruct (F32.gtb (grad v) MAX_RANGE); [rewrite Hv; reflexivity |].
  rewrite with_grad_id, (list_insert_id _ _ _ Hv). reflexivity.
Qed.

Lemma load_at h l p i :
  p = length h + i ->
  load p (h ++ l) =
  match l !! i with
  | Some v => Ok (v, h ++ l)
  | None => Err Fault
  end.
Proof. intros ->. apply load_app. Qed.

Lemma modify_at h l p i f :
  p = length h + i ->
  modify p f (h ++ l) =
  match l !! i with
  | Some v => Ok (tt, h ++ <[i := f v]> l)
  | None => Err Fault
  end.
Proof. intros ->. apply modify_app. Qed.

Ltac heap_at lem :=
  first
    [ rewrite (lem _ _ _ 0) by lia | rewrite (lem _ _ _ 1) by lia
    | rewrite (lem _ _ _ 2) by lia | rewrite (lem _ _ _ 3) by lia
    | rewrite (lem _ _ _ 4) by lia | rewrite (lem _ _ _ 5) by lia
    | rewrite (lem _ _ _ 6) by lia | rewrite (lem _ _ _ 7) by lia ].

Ltac heap_step :=
  first
    [ heap_at load_at
    | match goal with
      | |- context [modify ?p ?f (?h ++ ?l)] =>
        first
          [ rewrite (modify_at h l p 0 f) by lia | rewrite (modify_at h l p 1 f) by lia
          | rewrite (modify_at h l p 2 f) by lia | rewrite (modify_at h l p 3 f) by lia
          | rewrite (modify_at h l p 4 f) by lia | rewrite (modify_at h l p 5 f) by lia
          | rewrite (modify_at h l p 6 f) by lia | rewrite (modify_at h l p 7 f) by lia ]
      end ];
  cbn [lookup list_lookup insert list_insert
       data grad children n_children v_reverse
       with_grad with_data leaf_node binary_node].

Ltac heap_run :=
  repeat first
    [ progress unfold add_reverse, mul_reverse, relu_reverse, pwr_reverse,
        reverse_step, call_reverse, bind, get_child, get_grad, get_data, set_grad, ret
    | rewrite grad_clip_modify
    | heap_step
    | progress cbn [lookup list_lookup insert list_insert
                    data grad children n_children v_reverse
                    with_grad with_data leaf_node binary_node] ].

(** ** The pass over a graph with one operator *)

Lemma is_leaf_shape h h' p : shape h' = shape h -> is_leaf h p -> is_leaf h' p.
Proof.
  intros Hs (v & Hv & Hn & Hf).
  assert (shape h' !! p = Some (with_grad F32.zero v)) as Hp.
  { rewrite Hs, shape_lookup, Hv. reflexivity. }
  rewrite shape_lookup in Hp. destruct (h' !! p) as [v'|] eqn:Hv'; simplify_eq/=.
  exists v'. destruct v, v'; simplify_eq/=. auto.
Qed.

Lemma build_dag_leaf fuel h p dag visited :
  is_leaf h p -> length visited < MAX_DAG_SIZE -> length dag <= length visited ->
  exists dag' visited',
    build_dag (S fuel) h p dag visited = Ok (dag', visited') /\
    (dag' = dag \/ dag' = dag ++ [p]) /\
    length dag' <= length visited' <= S (length visited).
Proof.
  intros (v & Hv & Hn & Hf) Hlen Hle. rewrite build_dag_S.
  destruct (existsb _ _). { eexists _, _. split; [reflexivity |]. split; [auto | lia]. }
  destruct (Nat.leb_spec MAX_DAG_SIZE (length visited)) as [? | _]; [lia |].
  rewrite Hv. unfold operands. rewrite Hn, take_0. cbn [Nat.leb rbind foldl fst snd].
  destruct (Nat.leb_spec MAX_DAG_SIZE (length dag)) as [? | _]; [lia |].
  eexists _, _. split; [reflexivity |]. split; [auto |].
  rewrite !length_app. simpl. lia.
Qed.

Lemma build_dag_leaves fuel h cs :
  Forall (is_leaf h) cs ->
  forall dag visited,
  Forall (is_leaf h) dag ->
  length visited + length cs < MAX_DAG_SIZE -> length dag <= length visited ->
  exists dag' visited',
    foldl (fun acc c => rbind acc (fun st => build_dag (S fuel) h c (fst st) (snd st)))
          (Ok (dag, visited)) cs = Ok (dag', visited') /\
    Forall (is_leaf h) dag' /\
    length dag' <= length visited' <= length visited + length cs.
Proof.
  induction 1 as [| c cs Hc _ IH]; intros dag visited Hdag Hlen Hle.
  - eexists _, _. split; [reflexivity |]. split; [exact Hdag | simpl; lia].
  - simpl in Hlen. cbn [foldl rbind fst snd].
    destruct (build_dag_leaf fuel h c dag visited Hc) as (d1 & v1 & E & Hd1 & Hl1);
      [lia | lia |].
    rewrite E.
    destruct (IH d1 v1) as (d2 & v2 & E2 & Hd2 & Hl2); [| lia | lia |].
    { destruct Hd1 as [-> | ->]; [exact Hdag |].
      apply Forall_app. split; [exact Hdag | constructor; [exact Hc | constructor]]. }
    exists d2, v2. split; [exact E2 |]. split; [exact Hd2 | simpl; lia].
Qed.

Lemma reverse_loop_leaves l :
  forall h, Forall (is_leaf h) l -> reverse_loop l h = Ok (tt, h).
Proof.
  induction l as [| p l IH]; intros h Hl; [reflexivity |].
  apply Forall_cons in Hl as [(v & Hv & _ & Hf) Hl].
  cbn [reverse_loop]. unfold bind, reverse_step, bind, load. rewrite Hv, Hf.
  unfold ret. apply IH. exact Hl.
Qed.

(** When every operand of [c] is a leaf, [reverse c] is the seed followed
    by the gradient rule of [c]. *)
Lemma reverse_single_op h c vc f :
  h !! c = Some vc -> v_reverse vc = Some f ->
  n_children vc = length (children vc) -> length (children vc) <= 2 ->
  Forall (is_leaf h) (children vc) ->
  reverse c h = (set_grad c F32.one ;; call_reverse f c) h.
Proof.
  intros Hc Hf Hn Hlen Hleaves. unfold reverse.
  pose proof (lookup_lt_Some _ _ _ Hc) as Hlt.
  destruct (length h) as [| n] eqn:Hh; [lia |].
  rewrite build_dag_S. cbn [length firstn existsb].
  destruct (Nat.leb_spec MAX_DAG_SIZE 0) as [Hm | _]; [unfold MAX_DAG_SIZE in Hm; lia |].
  rewrite Hc. unfold operands. rewrite Hn, Nat.leb_refl, firstn_all. cbn [rbind].
  destruct (build_dag_leaves n h (children vc) Hleaves [] [c]) as (d & v & E & Hd & Hl);
    [constructor | unfold MAX_DAG_SIZE; simpl; lia | simpl; lia |].
  simpl app. rewrite E. cbn [rbind fst snd].
  destruct (Nat.leb_spec MAX_DAG_SIZE (length d)) as [Hm | _];
    [unfold MAX_DAG_SIZE in Hm; simpl in Hl; lia |].
  rewrite rev_app_distr. cbn [rev app reverse_loop].
  unfold bind at 1 3. destruct (set_grad c F32.one h) as [[[] h1] | e] eqn:E1; [| reflexivity].
  unfold bind. unfold reverse_step at 1. unfold bind, load.
  assert (shape h1 = shape h) as Hs1 by (eapply keeps_set_grad; exact E1).
  assert (exists v1, h1 !! c = Some v1 /\ v_reverse v1 = Some f) as (v1 & Hv1 & Hf1).
  { assert (shape h1 !! c = Some (with_grad F32.zero vc)) as Hp
      by (rewrite Hs1, shape_lookup, Hc; reflexivity).
    rewrite shape_lookup in Hp. destruct (h1 !! c) as [v1|]; simplify_eq/=.
    exists v1. split; [reflexivity |]. destruct v1, vc; simplify_eq/=. reflexivity. }
  rewrite Hv1, Hf1.
  destruct (call_reverse f c h1) as [[[] h2] | e] eqn:E2; [| reflexivity].
  apply reverse_loop_leaves. apply Forall_rev.
  eapply Forall_impl; [exact Hd |]. intros p. apply is_leaf_shape.
  rewrite (keeps_call_reverse _ _ _ _ _ E2). exact Hs1.
Qed.

Lemma lookup_at {A} (h l : list A) p i :
  p = length h + i -> (h ++ l) !! p = l !! i.
Proof. intros ->. apply lookup_app_plus. Qed.

Lemma is_leaf_at h l p i v :
  p = length h + i -> l !! i = Some v ->
  n_children v = 0 -> v_reverse v = None -> is_leaf (h ++ l) p.
Proof.
  intros -> Hl Hn Hf. exists v. rewrite lookup_app_plus. auto.
Qed.

Ltac leaves_at :=
  repeat constructor;
  first
    [ eapply (is_leaf_at _ _ _ 0); [lia | reflexivity ..]
    | eapply (is_leaf_at _ _ _ 1); [lia | reflexivity ..]
    | eapply (is_leaf_at _ _ _ 2); [lia | reflexivity ..]
    | eapply (is_leaf_at _ _ _ 3); [lia | reflexivity ..] ].

(** Rewrites [reverse c (h ++ l)] into the seed and the rule of [c],
    the [i]-th node of [l], whose operands are leaves. *)
Ltac single_pass i :=
  erewrite reverse_single_op;
  [
  | rewrite (lookup_at _ _ _ i) by lia; reflexivity
  | reflexivity
  | reflexivity
  | simpl; lia
  | leaves_at ].

(** ** Closed forms of the rules *)

Lemma load_run h p v : h !! p = Some v -> load p h = Ok (v, h).
Proof. intros Hp. unfold load. rewrite Hp. reflexivity. Qed.

Lemma modify_run h p v f : h !! p = Some v -> modify p f h = Ok (tt, <[p := f v]> h).
Proof. intros Hp. unfold modify. rewrite Hp. reflexivity. Qed.

(** Storing [g] in [p->grad] and clipping it. *)
Lemma set_grad_clip_run h p v g :
  h !! p = Some v ->
  (set_grad p g ;; grad_clip p) h = Ok (tt, <[p := with_grad (clip g) v]> h).
Proof.
  intros Hp. unfold bind, set_grad. rewrite (modify_run _ _ _ _ Hp).
  rewrite grad_clip_modify.
  rewrite (modify_run _ _ (with_grad g v)).
  - rewrite list_insert_insert_eq. reflexivity.
  - apply list_lookup_insert_eq. eapply lookup_lt_Some. exact Hp.
Qed.

(** [relu_reverse] on a node [c] with first operand [a]. *)
Lemma relu_reverse_run h c a vc va :
  h !! c = Some vc -> children vc !! 0 = Some a -> h !! a = Some va ->
  relu_reverse c h =
  Ok (tt, <[a := with_grad
                   (clip (F32.add (grad va)
                            (if F32.gtb (data va) F32.zero then grad vc else F32.zero)))
                   va]> h).
Proof.
  intros Hc Ha Hva. unfold relu_reverse.
  unfold bind at 1, get_child, bind at 1. rewrite (load_run _ _ _ Hc), Ha.
  unfold bind at 1, get_grad, bind at 1, ret. rewrite (load_run _ _ _ Hva).
  unfold bind at 1, get_data, bind at 1, ret. rewrite (load_run _ _ _ Hva).
  unfold bind at 1, bind at 1. rewrite (load_run _ _ _ Hc).
  apply set_grad_clip_run. exact Hva.
Qed.

(** [add_reverse] on a node [c] with two different operands [a] and [b],
    neither of them [c] itself. *)
Lemma add_reverse_run h c a b vc va vb :
  h !! c = Some vc -> children vc !! 0 = Some a -> children vc !! 1 = Some b ->
  h !! a = Some va -> h !! b = Some vb -> a <> b -> a <> c -> b <> c ->
  add_reverse c h =
  Ok (tt, <[b := with_grad (clip (F32.add (grad vb) (grad vc))) vb]>
            (<[a := with_grad (clip (F32.add (grad va) (grad vc))) va]> h)).
Proof.
  intros Hc Ha Hb Hva Hvb Hab Hac Hbc. unfold add_reverse.
  pose proof (lookup_lt_Some _ _ _ Hva) as Hla.
  pose proof (lookup_lt_Some _ _ _ Hvb) as Hlb.
  unfold bind at 1, get_child, bind at 1. rewrite (load_run _ _ _ Hc), Ha.
  unfold bind at 1, get_grad, bind at 1, ret. rewrite (load_run _ _ _ Hva).
  unfold bind at 1, bind at 1. rewrite (load_run _ _ _ Hc).
  unfold bind at 1, set_grad. rewrite (modify_run _ _ _ _ Hva).
  set (h1 := <[a := with_grad (F32.add (grad va) (grad vc)) va]> h).
  assert (h1 !! c = Some vc) as Hc1
    by (unfold h1; rewrite list_lookup_insert_ne by exact Hac; exact Hc).
  assert (h1 !! b = Some vb) as Hb1
    by (unfold h1; rewrite list_lookup_insert_ne by exact Hab; exact Hvb).
  assert (h1 !! a = Some (with_grad (F32.add (grad va) (grad vc)) va)) as Ha1
    by (unfold h1; apply list_lookup_insert_eq; exact Hla).
  unfold bind at 1, bind at 1. rewrite (load_run _ _ _ Hc1), Hb.
  unfold bind at 1, bind at 1. rewrite (load_run _ _ _ Hb1).
  unfold bind at 1, bind at 1. rewrite (load_run _ _ _ Hc1).
  unfold bind at 1. rewrite (modify_run _ _ _ _ Hb1).
  set (h2 := <[b := with_grad (F32.add (grad vb) (grad vc)) vb]> h1).
  assert (h2 !! c = Some vc) as Hc2
    by (unfold h2; rewrite list_lookup_insert_ne by exact Hbc; exact Hc1).
  assert (h2 !! a = Some (with_grad (F32.add (grad va) (grad vc)) va)) as Ha2
    by (unfold h2; rewrite list_lookup_insert_ne by congruence; exact Ha1).
  unfold bind at 1, bind at 1. rewrite (load_run _ _ _ Hc2), Ha.
  unfold bind at 1. rewrite grad_clip_modify, (modify_run _ _ _ _ Ha2).
  cbn [with_grad grad data children n_children v_reverse].
  set (h3 := <[a := _]> h2).
  assert (h3 !! c = Some vc) as Hc3
    by (unfold h3; rewrite list_lookup_insert_ne by exact Hac; exact Hc2).
  assert (h3 !! b = Some (with_grad (F32.add (grad vb) (grad vc)) vb)) as Hb3.
  { unfold h3. rewrite list_lookup_insert_ne by exact Hab.
    unfold h2. apply list_lookup_insert_eq. unfold h1. rewrite length_insert. exact Hlb. }
  unfold bind at 1, bind at 1. rewrite (load_run _ _ _ Hc3), Hb.
  rewrite grad_clip_modify, (modify_run _ _ _ _ Hb3).
  cbn [with_grad grad data children n_children v_reverse].
  unfold h3, h2, h1. f_equal. f_equal.
  rewrite (list_insert_insert_ne _ a b) by exact Hab.
  rewrite !list_insert_insert_eq. reflexivity.
Qed.

(** ** The clamp *)

Lemma SFcompare_antisym x y :
  SFcompare y x =
  match SFcompare x y with
  | Some c => Some (CompOpp c)
  | None => None
  end.
Proof.
  destruct x as [sx | sx | | sx mx ex], y as [sy | sy | | sy my ey];
    try destruct sx; try destruct sy; try reflexivity;
    simpl; rewrite (Z.compare_antisym ex ey);
    destruct (ex ?= ey)%Z; simpl; try reflexivity;
    pose proof (Pos.compare_cont_antisym mx my Eq) as H; simpl in H; rewrite <- H;
    destruct (Pos.compare_cont Eq mx my); reflexivity.
Qed.

Lemma SFcompare_None_nan x y :
  SFcompare x y = None -> F32.is_nan x = true \/ F32.is_nan y = true.
Proof.
  destruct x as [sx | sx | | sx mx ex], y as [sy | sy | | sy my ey];
    simpl; auto; try destruct sx; try destruct sy; discriminate.
Qed.

(** A gradient that is not NaN is in the range after the clamp; NaN
    compares false with both bounds and passes through. *)
Lemma clip_in_range g : F32.is_nan g = false -> in_range (clip g) = true.
Proof.
  intros Hg. unfold clip, F32.ltb, F32.gtb, SFltb.
  rewrite (SFcompare_antisym g MAX_RANGE).
  destruct (SFcompare g MIN_RANGE) as [[| |] |] eqn:Hmin; try reflexivity;
    destruct (SFcompare g MAX_RANGE) as [[| |] |] eqn:Hmax; simpl; try reflexivity;
    unfold in_range, F32.leb, SFleb;
    try (rewrite (SFcompare_antisym g MIN_RANGE), Hmin, Hmax; reflexivity);
    try (apply SFcompare_None_nan in Hmin as [Hn | Hn]; [congruence | discriminate]);
    try (apply SFcompare_None_nan in Hmax as [Hn | Hn]; [congruence | discriminate]).
Qed.

Lemma unchanged_app h l : unchanged h (h ++ l).
Proof. intros p v Hp. apply lookup_app_l_Some. exact Hp. Qed.

Lemma same_graph_shape h h' : shape h' = shape h -> same_graph h h'.
Proof.
  intros Hs. split.
  - rewrite <- (shape_length h'), Hs. apply shape_length.
  - intros p v Hp.
    assert (shape h' !! p = Some (with_grad F32.zero v)) as Hp'
      by (rewrite Hs, shape_lookup, Hp; reflexivity).
    rewrite shape_lookup in Hp'. destruct (h' !! p) as [v'|] eqn:Hv'; simplify_eq/=.
    exists v'. destruct v, v'; simplify_eq/=. auto.
Qed.

Lemma wf_same_shape h h' : shape h' = shape h -> wf h -> wf h'.
Proof.
  intros Hs Hwf. apply (proj2 (wf_shape h')). rewrite Hs.
  apply (proj1 (wf_shape h)). exact Hwf.
Qed.

Ltac eval_guard :=
  match goal with
  | |- context [F32.gtb ?a ?b] =>
    let r := eval vm_compute in (F32.gtb a b) in
    match r with
    | true => change (F32.gtb a b) with true
    | false => change (F32.gtb a b) with false
    end
  end.

Ltac build_two va vb run :=
  unfold bind; rewrite !defaultValue_run;
  rewrite (run _ _ _ (leaf_node va) (leaf_node vb));
  [| rewrite <- app_assoc; apply list_lookup_middle; reflexivity
   | apply list_lookup_middle; rewrite length_app; simpl; lia ];
  rewrite <- !app_assoc, !length_app; cbn [app length].

Ltac build_relu x :=
  unfold bind; rewrite !defaultValue_run;
  rewrite (relu_run _ _ (leaf_node x)) by (apply list_lookup_middle; reflexivity);
  rewrite <- !app_assoc, !length_app; cbn [app length].

Lemma relu_forward_run x h :
  exists h', relu_forward x h = Ok (if F32.gtb x F32.zero then x else F32.zero, h').
Proof.
  unfold relu_forward. build_relu x. heap_run. eexists. reflexivity.
Qed.

Lemma relu_pass_run x h :
  exists h',
    relu_pass x h =
    Ok (clip (F32.add F32.zero (if F32.gtb x F32.zero then F32.one else F32.zero)), h').
Proof.
  unfold relu_pass. build_relu x. single_pass 1. heap_run. eexists. reflexivity.
Qed.

(** ** A pass over gradients left by earlier passes *)

(** The pass from an [add] node over two leaves that hold any gradients. *)
Lemma add_reverse_pass h c a b vc va vb :
  h !! c = Some vc -> v_reverse vc = Some add_reverse_fn ->
  children vc = [a; b] -> n_children vc = 2 ->
  h !! a = Some va -> n_children va = 0 -> v_reverse va = None ->
  h !! b = Some vb -> n_children vb = 0 -> v_reverse vb = None ->
  a <> b ->
  reverse c h =
  Ok (tt, <[b := with_grad (clip (F32.add (grad vb) F32.one)) vb]>
            (<[a := with_grad (clip (F32.add (grad va) F32.one)) va]>
               (<[c := with_grad F32.one vc]> h))).
Proof.
  intros Hc Hf Hch Hn Ha Hna Hfa Hb Hnb Hfb Hab.
  assert (a <> c) as Hac by (intros ->; congruence).
  assert (b <> c) as Hbc by (intros ->; congruence).
  pose proof (lookup_lt_Some _ _ _ Hc) as Hlc.
  rewrite (reverse_single_op h c vc add_reverse_fn Hc Hf);
    [ | rewrite Hch, Hn; reflexivity | rewrite Hch; simpl; lia
      | rewrite Hch; repeat constructor; [exists va | exists vb]; auto ].
  unfold bind, set_grad. rewrite (modify_run _ _ _ _ Hc). cbn [call_reverse].
  rewrite (add_reverse_run _ c a b (with_grad F32.one vc) va vb).
  - reflexivity.
  - apply list_lookup_insert_eq. exact Hlc.
  - cbn [with_grad children]. rewrite Hch. reflexivity.
  - cbn [with_grad children]. rewrite Hch. reflexivity.
  - rewrite list_lookup_insert_ne by congruence. exact Ha.
  - rewrite list_lookup_insert_ne by congruence. exact Hb.
  - exact Hab.
  - exact Hac.
  - exact Hbc.
Qed.

(** [n] passes from an [add] node over two leaves that hold any gradients. *)
Lemma add_reverse_times n :
  forall h a b c da db dc ga gb gc,
  a = length h -> b = length h + 1 -> c = length h + 2 ->
  reverse_times n c
    (h ++ [ mkValue da ga [] 0 None; mkValue db gb [] 0 None;
            mkValue dc gc [a; b] 2 (Some add_reverse_fn) ]) =
  Ok (tt,
      h ++ [ mkValue da (Nat.iter n accumulate ga) [] 0 None;
             mkValue db (Nat.iter n accumulate gb) [] 0 None;
             mkValue dc (match n with 0 => gc | S _ => F32.one end) [a; b] 2
                     (Some add_reverse_fn) ]).
Proof.
  induction n as [| n IH]; intros h a b c da db dc ga gb gc -> -> ->; [reflexivity |].
  cbn [reverse_times]. unfold bind. single_pass 2. heap_run.
  unfold with_grad. cbn [data children n_children v_reverse].
  erewrite IH; [| lia ..]. rewrite !Nat.iter_succ_r. destruct n; reflexivity.
Qed.

Lemma add_passes_run n va vb h :
  exists h',
    add_passes n va vb h =
    Ok ((Nat.iter n accumulate F32.zero, Nat.iter n accumulate F32.zero), h').
Proof.
  unfold add_passes. build_two va vb add_run.
  unfold leaf_node, binary_node, bind.
  erewrite add_reverse_times; [| lia ..].
  heap_run. eexists. reflexivity.
Qed.

Lemma leb_MAX_DAG_SIZE n : n < MAX_DAG_SIZE -> (MAX_DAG_SIZE <=? n) = false.
Proof. intros Hn. apply Nat.leb_gt. exact Hn. Qed.

Lemma operands_all v :
  n_children v = length (children v) -> operands v = Ok (children v).
Proof. intros Hn. unfold operands. rewrite Hn, Nat.leb_refl, firstn_all. reflexivity. Qed.

Ltac eqb_decide :=
  repeat match goal with
  | |- context [Nat.eqb ?x ?y] =>
    first [ rewrite (proj2 (Nat.eqb_neq x y)) by lia
          | rewrite (proj2 (Nat.eqb_eq x y)) by lia ]
  end.

(** One call of [build_dag] on the [i]-th node of [l] in the heap [h ++ l]. *)
Ltac dag_call i :=
  rewrite build_dag_S;
  cbn [length firstn existsb app]; eqb_decide; cbn [orb];
  rewrite leb_MAX_DAG_SIZE by (cbn [length]; unfold MAX_DAG_SIZE; lia);
  rewrite (lookup_at _ _ _ i) by lia; cbn [lookup list_lookup];
  rewrite operands_all by reflexivity;
  cbn [children rbind foldl fst snd app].

Ltac dag_return :=
  rewrite leb_MAX_DAG_SIZE by (cbn [length]; unfold MAX_DAG_SIZE; lia);
  cbn [rbind fst snd app].

(** The pass from [r = relu(s)], [s = add(x, y)] over gradients [gx],
    [gy], [gs], [gr] left in the four nodes. *)
Lemma relu_add_reverse_run h x y s r dx dy ds dr gx gy gs gr :
  x = length h -> y = length h + 1 -> s = length h + 2 -> r = length h + 3 ->
  reverse r
    (h ++ [ mkValue dx gx [] 0 None; mkValue dy gy [] 0 None;
            mkValue ds gs [x; y] 2 (Some add_reverse_fn);
            mkValue dr gr [s] 1 (Some relu_reverse_fn) ]) =
  let gs' := clip (F32.add gs (if F32.gtb ds F32.zero then F32.one else F32.zero)) in
  Ok (tt,
      h ++ [ mkValue dx (clip (F32.add gx gs')) [] 0 None;
             mkValue dy (clip (F32.add gy gs')) [] 0 None;
             mkValue ds gs' [x; y] 2 (Some add_reverse_fn);
             mkValue dr F32.one [s] 1 (Some relu_reverse_fn) ]).
Proof.
  intros -> -> -> ->. unfold reverse. rewrite length_app. cbn [length].
  replace (S (length h + 4)) with (S (S (S (length h + 2)))) by lia.
  dag_call 3. dag_call 2. dag_call 0. dag_return. dag_call 1. dag_return.
  dag_return. dag_return.
  cbn [rev app reverse_loop]. heap_run. reflexivity.
Qed.

Lemma relu_add_passes_run h :
  (exists h1, relu_add_passes 1 (F32.of_Z 3) (F32.of_Z 4) h =
              Ok ((F32.one, F32.one, F32.one), h1)) /\
  (exists h2, relu_add_passes 2 (F32.of_Z 3) (F32.of_Z 4) h =
              Ok ((F32.of_Z 3, F32.of_Z 3, F32.two), h2)).
Proof.
  split.
  - unfold relu_add_passes. build_two (F32.of_Z 3) (F32.of_Z 4) add_run.
    rewrite (relu_run _ _ (binary_node (F32.add (F32.of_Z 3) (F32.of_Z 4))
                             (length h) (length h + 1) add_reverse_fn))
      by (rewrite (lookup_at _ _ _ 2) by lia; reflexivity).
    rewrite <- !app_assoc, !length_app. cbn [app length reverse_times].
    unfold bind, leaf_node, binary_node.
    erewrite relu_add_reverse_run; [| lia ..]. cbv beta iota zeta.
    heap_run. eexists. apply f_equal. apply (f_equal2 pair); [| reflexivity].
    vm_compute. reflexivity.
  - unfold relu_add_passes. build_two (F32.of_Z 3) (F32.of_Z 4) add_run.
    rewrite (relu_run _ _ (binary_node (F32.add (F32.of_Z 3) (F32.of_Z 4))
                             (length h) (length h + 1) add_reverse_fn))
      by (rewrite (lookup_at _ _ _ 2) by lia; reflexivity).
    rewrite <- !app_assoc, !length_app. cbn [app length reverse_times].
    unfold bind, leaf_node, binary_node.
    erewrite relu_add_reverse_run; [| lia ..]. cbv beta iota zeta.
    erewrite relu_add_reverse_run; [| lia ..]. cbv beta iota zeta.
    heap_run. eexists. apply f_equal. apply (f_equal2 pair); [| reflexivity].
    vm_compute. reflexivity.
Qed.

(** ** Every rule ends by clamping its operands *)

Lemma bind_inv {A B} (m : M A) (k : A -> M B) h b h' :
  bind m k h = Ok (b, h') -> exists a h1, m h = Ok (a, h1) /\ k a h1 = Ok (b, h').
Proof.
  unfold bind. destruct (m h) as [[a h1] | e]; [| discriminate]. eauto.
Qed.

Lemma get_child_inv c i h a h1 :
  get_child c i h = Ok (a, h1) ->
  h1 = h /\ exists v, h !! c = Some v /\ children v !! i = Some a.
Proof.
  unfold get_child, bind, load. destruct (h !! c) as [v|]; [| discriminate].
  destruct (children v !! i) as [a'|] eqn:Ha; [| discriminate].
  intros E. simplify_eq. eauto.
Qed.

Lemma shape_children h h1 c vc :
  shape h1 = shape h -> h !! c = Some vc ->
  exists v1, h1 !! c = Some v1 /\ children v1 = children vc.
Proof.
  intros Hs Hc. destruct (same_graph_shape _ _ Hs) as [_ H].
  destruct (H c vc Hc) as (v1 & Hv1 & _ & Hch & _). eauto.
Qed.

Lemma clamped_clip g : clamped (clip g).
Proof.
  destruct (F32.is_nan g) eqn:Hg.
  - left. destruct g; try discriminate. reflexivity.
  - right. apply clip_in_range. exact Hg.
Qed.

Lemma grad_clip_inv p h h' :
  grad_clip p h = Ok (tt, h') ->
  (exists v, h' !! p = Some v /\ clamped (grad v)) /\
  (forall q, q <> p -> h' !! q = h !! q) /\
  shape h' = shape h.
Proof.
  intros E. pose proof (keeps_grad_clip _ _ _ _ E) as Hs.
  rewrite grad_clip_modify in E. unfold modify in E.
  destruct (h !! p) as [v|] eqn:Hv; [| discriminate]. simplify_eq.
  split; [| split; [| exact Hs]].
  - eexists. split.
    + apply list_lookup_insert_eq. eapply lookup_lt_Some. exact Hv.
    + apply clamped_clip.
  - intros q Hq. apply list_lookup_insert_ne. congruence.
Qed.

Lemma ends_with_refl t : ends_with t t.
Proof. intros h h' E. eauto. Qed.

Lemma ends_with_bind {A} (m : M A) (k : A -> M unit) t :
  keeps_shape m -> (forall a, ends_with (k a) t) -> ends_with (bind m k) t.
Proof.
  intros Hm Hk h h' E. apply bind_inv in E as (a & h1 & E1 & E2).
  destruct (Hk a _ _ E2) as (h2 & Hs & Ht). exists h2.
  split; [| exact Ht]. rewrite Hs. apply (Hm _ _ _ E1).
Qed.

Ltac ends_step t :=
  first
    [ apply (ends_with_refl t)
    | apply ends_with_bind; [ repeat keeps_step | intros ? ] ].

Lemma add_reverse_ends c : ends_with (add_reverse c) (clip_operands c).
Proof. unfold add_reverse. repeat ends_step (clip_operands c). Qed.

Lemma mul_reverse_ends c : ends_with (mul_reverse c) (clip_operands c).
Proof. unfold mul_reverse. repeat ends_step (clip_operands c). Qed.

Lemma pwr_reverse_ends c : ends_with (pwr_reverse c) (clip_operands c).
Proof. unfold pwr_reverse. repeat ends_step (clip_operands c). Qed.

Lemma clip_operands_clamps c h h' vc i a :
  clip_operands c h = Ok (tt, h') ->
  h !! c = Some vc -> i < 2 -> children vc !! i = Some a ->
  exists va, h' !! a = Some va /\ clamped (grad va).
Proof.
  intros E Hc Hi Ha. unfold clip_operands in E.
  apply bind_inv in E as (c0 & h1 & E0 & E).
  apply get_child_inv in E0 as (-> & v0 & Hv0 & Hc0).
  apply bind_inv in E as ([] & h2 & E1 & E).
  apply grad_clip_inv in E1 as ((w0 & Hw0 & Hcl0) & Hother & Hs2).
  apply bind_inv in E as (c1 & h3 & E2 & E).
  apply get_child_inv in E2 as (-> & v1 & Hv1 & Hc1).
  apply grad_clip_inv in E as ((w1 & Hw1 & Hcl1) & Hother' & _).
  destruct (shape_children _ _ _ _ Hs2 Hc) as (v1' & Hv1' & Hch).
  rewrite Hc in Hv0. inversion Hv0; subst v0.
  rewrite Hv1' in Hv1. inversion Hv1; subst v1. rewrite Hch in Hc1.
  destruct i as [| [| i]]; [| | lia].
  - rewrite Ha in Hc0. inversion Hc0; subst c0.
    destruct (decide (a = c1)) as [-> | Hne]; [eauto |].
    rewrite (Hother' _ Hne). eauto.
  - rewrite Ha in Hc1. inversion Hc1; subst c1. eauto.
Qed.

(** After a gradient rule has run on [c], every operand that the rule
    updates holds a clamped gradient. *)
Lemma rule_clamps f c h h' vc i a :
  call_reverse f c h = Ok (tt, h') ->
  h !! c = Some vc -> i < arity (Some f) -> children vc !! i = Some a ->
  exists va, h' !! a = Some va /\ clamped (grad va).
Proof.
  intros E Hc Hi Ha.
  assert (forall m, ends_with m (clip_operands c) -> m h = Ok (tt, h') -> i < 2 ->
          exists va, h' !! a = Some va /\ clamped (grad va)) as Hends.
  { intros m Hm Em Hi2. destruct (Hm _ _ Em) as (h1 & Hs & Et).
    destruct (shape_children _ _ _ _ Hs Hc) as (v1 & Hv1 & Hch).
    apply (clip_operands_clamps c h1 h' v1 i a Et Hv1 Hi2). rewrite Hch. exact Ha. }
  destruct f; simpl in E, Hi.
  - apply (Hends _ (add_reverse_ends c) E Hi).
  - apply (Hends _ (mul_reverse_ends c) E Hi).
  - apply (Hends _ (pwr_reverse_ends c) E Hi).
  - unfold relu_reverse in E.
    apply bind_inv in E as (a0 & h1 & E0 & E).
    apply get_child_inv in E0 as (-> & v0 & Hv0 & Hc0).
    assert (i = 0) as -> by lia.
    rewrite Hc in Hv0. inversion Hv0; subst v0.
    rewrite Ha in Hc0. inversion Hc0; subst a0.
    assert (ends_with
              (ga <- get_grad a ;; da <- get_data a ;; gc <- get_grad c ;;
               set_grad a (F32.add ga (if F32.gtb da F32.zero then gc else F32.zero)) ;;
               grad_clip a)
              (grad_clip a)) as Hm by (repeat ends_step (grad_clip a)).
    destruct (Hm _ _ E) as (h1 & _ & Et).
    apply grad_clip_inv in Et as (Hv & _). exact Hv.
Qed.

(** ** What [build_dag] leaves in its buffers *)

Lemma operands_child_of h p v cs c :
  h !! p = Some v -> operands v = Ok cs -> (c ∈ cs <-> child_of h p c).
Proof.
  intros Hp Hcs. unfold operands in Hcs.
  destruct (Nat.leb_spec (n_children v) (length (children v))) as [Hle | Hgt];
    [| discriminate].
  inversion Hcs; subst cs; clear Hcs. split.
  - intros Hc. apply list_elem_of_lookup in Hc as [i Hi].
    apply lookup_take_Some in Hi as [Hi Hlt]. exists v, i. auto.
  - intros (v' & i & Hv' & Hi & Hc). rewrite Hp in Hv'. inversion Hv'; subst v'.
    apply list_elem_of_lookup. exists i. apply lookup_take_Some. auto.
Qed.

Lemma foldl_rbind_Ok {A B} (f : A -> B -> result A) (l : list B) (r : result A) a' :
  foldl (fun acc c => rbind acc (fun st => f st c)) r l = Ok a' ->
  exists a, r = Ok a.
Proof.
  destruct r as [a | e]; [eauto |]. rewrite foldl_rbind_Err. discriminate.
Qed.

Lemma build_dag_children_added fuel h val cs :
  (forall c dag visited dag' visited',
     build_dag fuel h c dag visited = Ok (dag', visited') ->
     dag_added h c dag visited dag' visited') ->
  Forall (child_of h val) cs ->
  forall dag visited dag' visited',
  foldl (fun acc c => rbind acc (fun st => build_dag fuel h c (fst st) (snd st)))
        (Ok (dag, visited)) cs = Ok (dag', visited') ->
  exists l l', dag' = dag ++ l /\ visited' = visited ++ l' /\ l ≡ₚ l' /\
               Forall (fun p => exists c, child_of h val c /\ reach h c p) l.
Proof.
  intros IH Hcs. induction Hcs as [| c cs Hc _ IHcs]; intros dag visited dag' visited' E.
  - inversion E; subst. exists [], []. rewrite !app_nil_r. auto.
  - cbn [foldl rbind fst snd] in E.
    destruct (foldl_rbind_Ok _ _ _ _ E) as [[d1 v1] E1]. rewrite E1 in E.
    destruct (IH _ _ _ _ _ E1) as (l1 & l1' & -> & -> & Hp1 & Hr1).
    destruct (IHcs _ _ _ _ E) as (l2 & l2' & -> & -> & Hp2 & Hr2).
    exists (l1 ++ l2), (l1' ++ l2'). rewrite !app_assoc.
    split; [reflexivity |]. split; [reflexivity |].
    split; [rewrite Hp1, Hp2; reflexivity |].
    apply Forall_app. split; [| exact Hr2].
    eapply Forall_impl; [exact Hr1 |]. intros p Hp. simpl. eauto.
Qed.

Lemma build_dag_added fuel h :
  forall val dag visited dag' visited',
  build_dag fuel h val dag visited = Ok (dag', visited') ->
  dag_added h val dag visited dag' visited'.
Proof.
  induction fuel as [| fuel IH]; intros val dag visited dag' visited' E; [discriminate |].
  rewrite build_dag_S in E. destruct (existsb _ _).
  { inversion E; subst. exists [], []. rewrite !app_nil_r. repeat split; auto. }
  destruct (MAX_DAG_SIZE <=? length visited); [discriminate |].
  destruct (h !! val) as [v|] eqn:Hv; [| discriminate].
  destruct (operands v) as [cs | e] eqn:Hcs; [| discriminate]. cbn [rbind] in E.
  destruct (foldl _ _ cs) as [[d1 v1] | e] eqn:Efold; [| discriminate].
  cbn [rbind fst snd] in E.
  destruct (MAX_DAG_SIZE <=? length d1); [discriminate |]. inversion E; subst; clear E.
  assert (Forall (child_of h val) cs) as Hch.
  { apply Forall_forall. intros c Hc. apply (operands_child_of h val v cs c Hv Hcs). exact Hc. }
  destruct (build_dag_children_added fuel h val cs IH Hch _ _ _ _ Efold)
    as (l & l' & -> & -> & Hp & Hr).
  exists (l ++ [val]), (val :: l'). rewrite <- !app_assoc.
  split; [reflexivity |]. split; [reflexivity |].
  split; [rewrite Hp; symmetry; apply Permutation_cons_append |].
  apply Forall_app. split.
  - eapply Forall_impl; [exact Hr |]. intros p (c & Hc & Hcp). simpl.
    eapply rtc_l; eassumption.
  - constructor; [apply rtc_refl | constructor].
Qed.

Lemma calls_in_Call h p ts :
  calls_in h (Call p ts) <->
  (exists v cs, h !! p = Some v /\ operands v = Ok cs /\ sublist (callee <$> ts) cs) /\
  Forall (calls_in h) ts.
Proof.
  cbn [calls_in]. split; intros [Hp Hts]; (split; [exact Hp |]); clear Hp.
  - induction ts as [| t ts IH]; [constructor |].
    destruct Hts as [Ht Hts]. constructor; [exact Ht | apply IH; exact Hts].
  - induction Hts as [| t ts Ht _ IH]; [exact I | split; assumption].
Qed.

Lemma build_dag_children_calls fuel h cs :
  (forall c dag visited dag' visited',
     build_dag fuel h c dag visited = Ok (dag', visited') ->
     exists f, (f = [] \/ exists ts, f = [Call c ts]) /\ Forall (calls_in h) f /\
               dag' = dag ++ flat_map exit_order f /\
               visited' = visited ++ flat_map entry_order f) ->
  forall dag visited dag' visited',
  foldl (fun acc c => rbind acc (fun st => build_dag fuel h c (fst st) (snd st)))
        (Ok (dag, visited)) cs = Ok (dag', visited') ->
  exists ts, sublist (callee <$> ts) cs /\ Forall (calls_in h) ts /\
             dag' = dag ++ flat_map exit_order ts /\
             visited' = visited ++ flat_map entry_order ts.
Proof.
  intros IH. induction cs as [| c cs IHcs]; intros dag visited dag' visited' E.
  - inversion E; subst. exists []. cbn [flat_map fmap list_fmap]. rewrite !app_nil_r.
    split; [constructor |]. split; [constructor |]. split; reflexivity.
  - cbn [foldl rbind fst snd] in E.
    destruct (foldl_rbind_Ok _ _ _ _ E) as [[d1 v1] E1]. rewrite E1 in E.
    destruct (IH _ _ _ _ _ E1) as (f & Hf & Hin1 & -> & ->).
    destruct (IHcs _ _ _ _ E) as (ts & Hsub & Hin2 & -> & ->).
    exists (f ++ ts). rewrite !flat_map_app, !app_assoc.
    split; [| split; [apply Forall_app; split; assumption | split; reflexivity]].
    destruct Hf as [-> | [ts1 ->]].
    + apply sublist_cons. exact Hsub.
    + apply sublist_skip. exact Hsub.
Qed.

Lemma build_dag_calls fuel h :
  forall val dag visited dag' visited',
  build_dag fuel h val dag visited = Ok (dag', visited') ->
  exists f, (f = [] \/ exists ts, f = [Call val ts]) /\ Forall (calls_in h) f /\
            dag' = dag ++ flat_map exit_order f /\
            visited' = visited ++ flat_map entry_order f.
Proof.
  induction fuel as [| fuel IH]; intros val dag visited dag' visited' E; [discriminate |].
  rewrite build_dag_S in E. destruct (existsb _ _).
  { inversion E; subst. exists []. cbn [flat_map]. rewrite !app_nil_r.
    split; [left; reflexivity |]. split; [constructor |]. split; reflexivity. }
  destruct (MAX_DAG_SIZE <=? length visited); [discriminate |].
  destruct (h !! val) as [v|] eqn:Hv; [| discriminate].
  destruct (operands v) as [cs | e] eqn:Hcs; [| discriminate]. cbn [rbind] in E.
  destruct (foldl _ _ cs) as [[d1 v1] | e] eqn:Efold; [| discriminate].
  cbn [rbind fst snd] in E.
  destruct (MAX_DAG_SIZE <=? length d1); [discriminate |]. inversion E; subst; clear E.
  destruct (build_dag_children_calls fuel h cs IH _ _ _ _ Efold)
    as (ts & Hsub & Hin & -> & ->).
  exists [Call val ts]. cbn [flat_map exit_order entry_order]. rewrite !app_nil_r.
  split; [right; exists ts; reflexivity |].
  split; [constructor; [| constructor]; apply calls_in_Call; split;
          [exists v, cs; auto | exact Hin] |].
  rewrite <- !app_assoc. split; reflexivity.
Qed.

Lemma existsb_eqb_elem (val : ptr) (l : list ptr) :
  existsb (Nat.eqb val) l = true -> val ∈ l.
Proof.
  intros H. apply existsb_exists in H as (x & Hx & Heq).
  apply Nat.eqb_eq in Heq. subst x. apply list_elem_of_In. exact Hx.
Qed.

Lemma child_of_lt h p c : wf h -> child_of h p c -> c < p.
Proof.
  intros Hwf (v & i & Hv & _ & Hc). eapply wf_children; eassumption.
Qed.

Lemma ordered_snoc h dag val :
  ordered h dag -> (forall c, child_of h val c -> c ∈ dag) -> ordered h (dag ++ [val]).
Proof.
  intros Ho Hval i p c Hi Hc.
  destruct (decide (i < length dag)) as [Hlt | Hge].
  - rewrite lookup_app_l in Hi by exact Hlt. rewrite take_app_le by lia.
    eapply Ho; eassumption.
  - apply lookup_snoc_Some in Hi as [[Hlt _] | [-> ->]]; [lia |].
    rewrite take_app_length. apply Hval. exact Hc.
Qed.

Lemma build_dag_children_ordered fuel h val stack cs :
  wf h ->
  (forall c stack dag visited dag' visited',
     build_dag fuel h c dag visited = Ok (dag', visited') ->
     Forall (fun s => c < s) stack -> entered stack dag visited -> ordered h dag ->
     entered stack dag' visited' /\ ordered h dag' /\ c ∈ dag') ->
  Forall (child_of h val) cs -> Forall (fun s => val < s) stack ->
  forall dag visited dag' visited',
  foldl (fun acc c => rbind acc (fun st => build_dag fuel h c (fst st) (snd st)))
        (Ok (dag, visited)) cs = Ok (dag', visited') ->
  entered (val :: stack) dag visited -> ordered h dag ->
  entered (val :: stack) dag' visited' /\ ordered h dag' /\ Forall (fun c => c ∈ dag') cs.
Proof.
  intros Hwf IH Hcs Hstack.
  induction Hcs as [| c cs Hc Hcs IHcs]; intros dag visited dag' visited' E He Ho.
  - inversion E; subst. auto.
  - cbn [foldl rbind fst snd] in E.
    destruct (foldl_rbind_Ok _ _ _ _ E) as [[d1 v1] E1]. rewrite E1 in E.
    pose proof (child_of_lt _ _ _ Hwf Hc) as Hlt.
    destruct (IH c (val :: stack) _ _ _ _ E1) as (He1 & Ho1 & Hc1); [| exact He | exact Ho |].
    { constructor; [exact Hlt |]. eapply Forall_impl; [exact Hstack |]. simpl. intros; lia. }
    destruct (IHcs _ _ _ _ E He1 Ho1) as (He2 & Ho2 & Hcs2).
    split; [exact He2 |]. split; [exact Ho2 |]. constructor; [| exact Hcs2].
    destruct (build_dag_children_added fuel h val cs (build_dag_added fuel h) Hcs
                _ _ _ _ E) as (l & l' & -> & _).
    apply elem_of_app. left. exact Hc1.
Qed.

Lemma build_dag_ordered h :
  wf h ->
  forall fuel val stack dag visited dag' visited',
  build_dag fuel h val dag visited = Ok (dag', visited') ->
  Forall (fun s => val < s) stack -> entered stack dag visited -> ordered h dag ->
  entered stack dag' visited' /\ ordered h dag' /\ val ∈ dag'.
Proof.
  intros Hwf. induction fuel as [| fuel IH];
    intros val stack dag visited dag' visited' E Hstack He Ho; [discriminate |].
  rewrite build_dag_S in E. destruct (existsb _ _) eqn:Hseen.
  { inversion E; subst. split; [exact He |]. split; [exact Ho |].
    apply existsb_eqb_elem in Hseen.
    assert (val ∈ visited') as Hv by (eapply (subseteq_take (length dag')); exact Hseen).
    destruct (He _ Hv) as [Hd | Hs]; [exact Hd |].
    pose proof (proj1 (Forall_forall _ _) Hstack _ Hs). simpl in *. lia. }
  destruct (MAX_DAG_SIZE <=? length visited); [discriminate |].
  destruct (h !! val) as [v|] eqn:Hv; [| discriminate].
  destruct (operands v) as [cs | e] eqn:Hcs; [| discriminate]. cbn [rbind] in E.
  destruct (foldl _ _ cs) as [[d1 v1] | e] eqn:Efold; [| discriminate].
  cbn [rbind fst snd] in E.
  destruct (MAX_DAG_SIZE <=? length d1); [discriminate |]. inversion E; subst; clear E.
  assert (Forall (child_of h val) cs) as Hch.
  { apply Forall_forall. intros c Hc. apply (operands_child_of h val v cs c Hv Hcs). exact Hc. }
  destruct (build_dag_children_ordered fuel h val stack cs Hwf IH Hch Hstack
              _ _ _ _ Efold) as (He1 & Ho1 & Hcs1); [| exact Ho |].
  { intros q Hq. apply elem_of_app in Hq as [Hq | Hq].
    - destruct (He q Hq) as [? | ?]; [left; assumption | right; apply elem_of_cons; auto].
    - apply list_elem_of_singleton in Hq. subst q. right. apply elem_of_cons. auto. }
  split; [| split].
  - intros q Hq. destruct (He1 q Hq) as [Hd | Hs].
    + left. apply elem_of_app. auto.
    + apply elem_of_cons in Hs as [-> | Hs]; [| auto].
      left. apply elem_of_app. right. apply list_elem_of_singleton. reflexivity.
  - apply ordered_snoc; [exact Ho1 |]. intros c Hc.
    apply (operands_child_of h val v cs c Hv Hcs) in Hc.
    apply (proj1 (Forall_forall _ _) Hcs1 c Hc).
  - apply elem_of_app. right. apply list_elem_of_singleton. reflexivity.
Qed.

(** ** The footprint of the rules and of the pass *)

Lemma triple_ret {A} s P (a : A) (Q : A -> Prop) : Q a -> triple s P (ret a) Q.
Proof. intros HQ h b h' Hs E. inversion E; subst. auto. Qed.

Lemma triple_bind {A B} s P (m : M A) (k : A -> M B) Q R :
  triple s P m Q -> (forall a, Q a -> triple s P (k a) R) -> triple s P (bind m k) R.
Proof.
  intros Hm Hk h b h' Hs E. apply bind_inv in E as (a & h1 & E1 & E2).
  destruct (Hm _ _ _ Hs E1) as (Hs1 & Hf1 & HQ).
  destruct (Hk a HQ _ _ _ Hs1 E2) as (Hs2 & Hf2 & HR).
  split; [exact Hs2 |]. split; [| exact HR].
  intros p Hp. rewrite (Hf2 p Hp). apply Hf1. exact Hp.
Qed.

Lemma triple_mono {A} s (P P' : ptr -> Prop) (m : M A) Q :
  triple s P m Q -> (forall p, P p -> P' p) -> triple s P' m Q.
Proof.
  intros Hm HP h a h' Hs E. destruct (Hm _ _ _ Hs E) as (Hs1 & Hf & HQ).
  split; [exact Hs1 |]. split; [| exact HQ]. intros p Hp. apply Hf. auto.
Qed.

Lemma triple_load s P p :
  triple s P (load p) (fun v => s !! p = Some (with_grad F32.zero v)).
Proof.
  intros h a h' Hs E. unfold load in E. destruct (h !! p) as [v|] eqn:Hv; [| discriminate].
  inversion E; subst. split; [reflexivity |]. split; [reflexivity |].
  rewrite shape_lookup, Hv. reflexivity.
Qed.

Lemma triple_get_grad s P p : triple s P (get_grad p) (fun _ => True).
Proof.
  unfold get_grad. eapply triple_bind; [apply triple_load |].
  intros v _. apply triple_ret. exact I.
Qed.

Lemma triple_get_data s P p : triple s P (get_data p) (fun _ => True).
Proof.
  unfold get_data. eapply triple_bind; [apply triple_load |].
  intros v _. apply triple_ret. exact I.
Qed.

Lemma triple_get_child s P c i : triple s P (get_child c i) (operand_at s c i).
Proof.
  unfold get_child. eapply triple_bind; [apply triple_load |].
  intros v Hv h a h' Hs E. simpl in Hv.
  destruct (children v !! i) as [q|] eqn:Hq; [| discriminate]. inversion E; subst.
  split; [reflexivity |]. split; [reflexivity |]. exists (with_grad F32.zero v). auto.
Qed.

Lemma triple_set_grad s (P : ptr -> Prop) p x :
  P p -> triple s P (set_grad p x) (fun _ => True).
Proof.
  intros HP h a h' Hs E. pose proof (keeps_set_grad _ _ _ _ _ E) as Hk.
  unfold set_grad, modify in E. destruct (h !! p) as [v|] eqn:Hv; [| discriminate].
  inversion E; subst. split; [exact Hk |]. split; [| exact I].
  intros q Hq. apply list_lookup_insert_ne. congruence.
Qed.

Lemma triple_grad_clip s (P : ptr -> Prop) p :
  P p -> triple s P (grad_clip p) (fun _ => True).
Proof.
  intros HP. unfold grad_clip. eapply triple_bind; [apply triple_get_grad |].
  intros g _. destruct (F32.ltb g MIN_RANGE); [apply triple_set_grad; exact HP |].
  destruct (F32.gtb g MAX_RANGE); [apply triple_set_grad; exact HP |].
  apply triple_ret. exact I.
Qed.

Lemma operand_at_of s f c i q :
  operand_at s c i q -> i < arity (Some f) -> operand_of s f c q.
Proof. intros H Hi. exists i. auto. Qed.

Ltac triple_prim :=
  first
    [ apply triple_get_child
    | apply triple_get_grad
    | apply triple_get_data
    | apply triple_set_grad; eapply operand_at_of; [eassumption | simpl; lia]
    | apply triple_grad_clip; eapply operand_at_of; [eassumption | simpl; lia]
    | apply triple_ret; exact I ].

Ltac triple_step :=
  first
    [ triple_prim
    | eapply triple_bind; [ triple_prim | intros ? ?; cbv beta in * ]
    | eapply triple_bind;
      [ match goal with
        | |- triple _ _ (if ?b then _ else _) _ => destruct b
        end
      | intros ? ?; cbv beta in * ] ].

Lemma triple_call_reverse s f c :
  triple s (operand_of s f c) (call_reverse f c) (fun _ => True).
Proof.
  destruct f; simpl;
    [ unfold add_reverse | unfold mul_reverse | unfold pwr_reverse | unfold relu_reverse ];
    repeat triple_step.
Qed.

Lemma triple_reverse_step s c :
  triple s (updated_by s c) (reverse_step c) (fun _ => True).
Proof.
  unfold reverse_step. eapply triple_bind; [apply triple_load |].
  intros v Hv. cbv beta in Hv.
  destruct (v_reverse v) as [f|] eqn:Hf; [| apply triple_ret; exact I].
  eapply triple_mono; [apply triple_call_reverse |].
  intros q Hq. exists (with_grad F32.zero v), f. auto.
Qed.

Lemma triple_reverse_loop s l :
  triple s (fun q => exists c, c ∈ l /\ updated_by s c q) (reverse_loop l) (fun _ => True).
Proof.
  induction l as [| c l IH]; cbn [reverse_loop]; [apply triple_ret; exact I |].
  eapply triple_bind.
  - eapply triple_mono; [apply triple_reverse_step |].
    intros q Hq. exists c. split; [apply elem_of_cons; auto | exact Hq].
  - intros _ _. eapply triple_mono; [exact IH |].
    intros q (c' & Hc' & Hq). exists c'. split; [apply elem_of_cons; auto | exact Hq].
Qed.

Lemma operand_of_dec s f c q : operand_of s f c q \/ ~ operand_of s f c q.
Proof.
  destruct (s !! c) as [sv|] eqn:Hc.
  - destruct (decide (children sv !! 0 = Some q)) as [H0 | H0].
    { left. exists 0. split; [destruct f; simpl; lia | exists sv; auto]. }
    destruct (decide (children sv !! 1 = Some q /\ 1 < arity (Some f))) as [[H1 Hlt] | H1].
    { left. exists 1. split; [exact Hlt | exists sv; auto]. }
    right. intros (i & Hi & sv' & Hsv' & Hq). rewrite Hc in Hsv'. inversion Hsv'; subst sv'.
    destruct i as [| [| i]]; [auto | auto |]. destruct f; simpl in Hi; lia.
  - right. intros (i & _ & sv & Hsv & _). congruence.
Qed.

Lemma operand_at_shape h c i q :
  operand_at (shape h) c i q <-> exists v, h !! c = Some v /\ children v !! i = Some q.
Proof.
  unfold operand_at. rewrite shape_lookup. split.
  - intros (sv & Hsv & Hq). destruct (h !! c) as [v|]; [| discriminate].
    inversion Hsv; subst sv. eauto.
  - intros (v & -> & Hq). exists (with_grad F32.zero v). auto.
Qed.

Lemma reverse_step_clamped c h h' :
  reverse_step c h = Ok (tt, h') -> all_clamped h -> all_clamped h'.
Proof.
  intros E Hall. unfold reverse_step in E.
  apply bind_inv in E as (v & h1 & El & E). unfold load in El.
  destruct (h !! c) as [vc|] eqn:Hc; [| discriminate]. inversion El; subst v h1; clear El.
  destruct (v_reverse vc) as [f|] eqn:Hf; [| inversion E; subst; exact Hall].
  apply Forall_lookup. intros q v' Hq.
  destruct (operand_of_dec (shape h) f c q) as [(i & Hi & Hat) | Hno].
  - apply (proj1 (operand_at_shape _ _ _ _)) in Hat as (vc' & Hc' & Hqi). rewrite Hc in Hc'.
    inversion Hc'; subst vc'.
    destruct (rule_clamps f c h h' vc i q E Hc Hi Hqi) as (va & Hva & Hcl).
    rewrite Hq in Hva. inversion Hva; subst va. exact Hcl.
  - destruct (triple_call_reverse (shape h) f c h tt h' eq_refl E) as (_ & Hframe & _).
    rewrite (Hframe q Hno) in Hq.
    apply (proj1 (Forall_lookup _ _) Hall q v' Hq).
Qed.

Lemma reverse_loop_clamped l :
  forall h h', reverse_loop l h = Ok (tt, h') -> all_clamped h -> all_clamped h'.
Proof.
  induction l as [| c l IH]; intros h h' E Hall; cbn [reverse_loop] in E.
  - inversion E; subst. exact Hall.
  - apply bind_inv in E as ([] & h1 & E1 & E2).
    eapply IH; [exact E2 |]. eapply reverse_step_clamped; eassumption.
Qed.

Lemma updated_by_child_of h c q :
  wf h -> updated_by (shape h) c q -> child_of h c q.
Proof.
  intros Hwf (sv & f & Hsv & Hf & i & Hi & Hat).
  apply (proj1 (operand_at_shape _ _ _ _)) in Hat as (v & Hv & Hq).
  rewrite shape_lookup, Hv in Hsv. inversion Hsv; subst sv. simpl in Hf.
  destruct (Hwf c v Hv) as (_ & Hn & Har). rewrite Hf in Har.
  exists v, i. split; [exact Hv |]. split; [lia | exact Hq].
Qed.

(** ** Arithmetic of the clamp and of [sub] *)

Lemma clip_idempotent g : clip (clip g) = clip g.
Proof.
  unfold clip. destruct (F32.ltb g MIN_RANGE) eqn:Hlt; [reflexivity |].
  destruct (F32.gtb g MAX_RANGE) eqn:Hgt; [reflexivity |].
  rewrite Hlt, Hgt. reflexivity.
Qed.

Lemma clip_in_range_id g : in_range g = true -> clip g = g.
Proof.
  unfold in_range, clip, F32.leb, F32.ltb, F32.gtb, SFleb, SFltb. intros H.
  apply andb_prop in H as [Hmin Hmax].
  rewrite (SFcompare_antisym MIN_RANGE g), (SFcompare_antisym g MAX_RANGE).
  destruct (SFcompare MIN_RANGE g) as [[| |] |]; try discriminate;
    destruct (SFcompare g MAX_RANGE) as [[| |] |]; try discriminate; reflexivity.
Qed.

(** Adding the negation is the subtraction of [float]. *)
Lemma add_neg_sub x y : F32.add x (F32.neg y) = F32.sub x y.
Proof.
  unfold F32.add, F32.sub, F32.neg.
  destruct x as [sx | sx | | sx mx ex], y as [sy | sy | | sy my ey];
    try reflexivity; destruct sx, sy; reflexivity.
Qed.

(** ** Closed form of [mul_reverse] *)

Ltac rule_run Hla Hlb :=
  repeat first
    [ match goal with
      | H : ?h !! ?p = Some _ |- context [?h !! ?p] => rewrite H
      | H : children ?v !! ?i = Some _ |- context [children ?v !! ?i] => rewrite H
      end
    | rewrite list_lookup_insert_ne by congruence
    | rewrite list_lookup_insert_eq by (rewrite ?length_insert; first [exact Hla | exact Hlb])
    | rewrite grad_clip_modify; unfold modify
    | progress cbn [with_grad grad data children n_children v_reverse] ].

(** [mul_reverse] on a node [c] with two different operands [a] and [b],
    neither of them [c] itself. *)
Lemma mul_reverse_run h c a b vc va vb :
  h !! c = Some vc -> children vc !! 0 = Some a -> children vc !! 1 = Some b ->
  h !! a = Some va -> h !! b = Some vb -> a <> b -> a <> c -> b <> c ->
  mul_reverse c h =
  Ok (tt, <[b := with_grad (clip (F32.add (grad vb) (F32.mul (grad vc) (data va)))) vb]>
            (<[a := with_grad (clip (F32.add (grad va) (F32.mul (grad vc) (data vb)))) va]> h)).
Proof.
  intros Hc Ha Hb Hva Hvb Hab Hac Hbc.
  pose proof (lookup_lt_Some _ _ _ Hva) as Hla.
  pose proof (lookup_lt_Some _ _ _ Hvb) as Hlb.
  unfold mul_reverse, bind, get_child, get_grad, get_data, set_grad, bind, ret, load, modify.
  rule_run Hla Hlb.
  f_equal. f_equal.
  rewrite (list_insert_insert_ne _ a b) by exact Hab.
  rewrite !list_insert_insert_eq. reflexivity.
Qed.

(** ** The loop of [free_node] *)

Lemma with_n_children_id v : with_n_children (n_children v) v = v.
Proof. destruct v; reflexivity. Qed.

Lemma div2_step d : 0 < d -> Nat.div2 (S d) = S (Nat.div2 (S (d - 2))).
Proof.
  intros Hd. destruct d as [| [| d]]; [lia | reflexivity |].
  replace (S (S d) - 2) with d by lia. reflexivity.
Qed.

Lemma free_children_run val : forall fuel i h v freed,
  h !! val = Some v -> n_children v <= length (children v) ->
  n_children v - i < fuel ->
  free_children fuel val i freed h =
  Ok (freed ++ take (Nat.div2 (S (n_children v - i))) (drop i (children v)),
      <[val := with_n_children (n_children v - Nat.div2 (S (n_children v - i))) v]> h).
Proof.
  induction fuel as [| fuel IH]; intros i h v freed Hv Hlen Hfuel; [lia |].
  cbn [free_children]. unfold bind at 1. rewrite (load_run _ _ _ Hv).
  destruct (Nat.ltb_spec i (n_children v)) as [Hlt | Hge].
  - destruct (lookup_lt_is_Some_2 (children v) i) as [c Hc]; [lia |].
    unfold bind at 1, get_child, bind at 1. rewrite (load_run _ _ _ Hv), Hc.
    unfold bind at 1. rewrite (load_run _ _ _ Hv).
    unfold bind at 1, set_n_children. rewrite (modify_run _ _ _ _ Hv).
    rewrite (IH (S i) _ (with_n_children (n_children v - 1) v));
      [| apply list_lookup_insert_eq; eapply lookup_lt_Some; exact Hv
       | simpl; lia | simpl; lia ].
    cbn [with_n_children n_children children data grad v_reverse].
    rewrite list_insert_insert_eq.
    rewrite (div2_step (n_children v - i)) by lia.
    replace (n_children v - 1 - S i) with (n_children v - i - 2) by lia.
    rewrite (drop_S _ _ _ Hc). cbn [firstn]. rewrite <- app_assoc. simpl app.
    replace (n_children v - 1 - Nat.div2 (S (n_children v - i - 2)))
      with (n_children v - S (Nat.div2 (S (n_children v - i - 2)))) by lia.
    reflexivity.
  - replace (n_children v - i) with 0 by lia. cbn [Nat.div2 firstn].
    rewrite app_nil_r, Nat.sub_0_r, with_n_children_id, (list_insert_id _ _ _ Hv).
    reflexivity.
Qed.

Lemma free_node_run h val v :
  h !! val = Some v -> n_children v <= length (children v) ->
  free_node val h =
    Ok (take (Nat.div2 (S (n_children v))) (children v) ++ [val],
        <[val := with_n_children (n_children v - Nat.div2 (S (n_children v))) v]> h).
Proof.
  intros Hv Hlen. unfold free_node, bind. rewrite (load_run _ _ _ Hv).
  rewrite (free_children_run val _ 0 h v [] Hv Hlen) by lia.
  rewrite Nat.sub_0_r. reflexivity.
Qed.

Lemma take_half_first (cs : list ptr) a n :
  cs !! 0 = Some a -> 0 < n ->
  exists k, take (Nat.div2 (S n)) cs = a :: take k (tail cs).
Proof.
  intros Ha Hn. destruct cs as [| a' cs]; [discriminate |]. inversion Ha; subst a'.
  destruct n as [| n]; [lia |]. cbn [Nat.div2 firstn tail]. eauto.
Qed.

(** ** The properties of the specification *)

(** C1. The Pow rule as the code has it, run on two graphs
    [c = pwr(a, b)] with [reverse(c)] (the seed makes [c->grad] 1).
    With [a = 2] and [b = -1] the exponent's gradient stays [+0]: the
    guard is [b->data > 0], so the logarithm term is skipped although
    [a->data = 2 > 0]. With [a = 1] and [b = 1] the exponent's gradient is
    the clamp of [0 + (log(1) * c->data + c->grad)]: the rule adds
    [c->grad] where its own comment multiplies by it. *)
Theorem C1_pwr_reverse_exponent_rule h :
  F32.gtb (F32.of_Z 2) F32.zero = true /\
  (exists h', pwr_pass (F32.of_Z 2) (F32.of_Z (-1)) h = Ok (F32.zero, h')) /\
  (exists h',
     pwr_pass F32.one F32.one h =
     Ok (clip (F32.round
                 (F64.add (F64.of_f32 F32.zero)
                    (F64.add (F64.mul (log (F64.of_f32 F32.one))
                                      (F64.of_f32 (powf F32.one F32.one)))
                             (F64.of_f32 F32.one)))),
         h')).
Proof.
  split; [reflexivity |]. split.
  - unfold pwr_pass. build_two (F32.of_Z 2) (F32.of_Z (-1)) pwr_run.
    single_pass 2. heap_run. eval_guard. heap_run. eexists. reflexivity.
  - unfold pwr_pass. build_two F32.one F32.one pwr_run.
    single_pass 2. heap_run. eval_guard. heap_run. eexists. reflexivity.
Qed.

(** C2. On the graph [c = add(x, x)], [build_dag] fills [dag] with
    [x; x; c]: the shared operand is emitted twice, because the
    membership loop looks at [visited[0 .. dag_size-1]] only. A node that
    has a gradient rule can be emitted twice as well: in
    [relu(add(s, s))] with [s = relu(x)] and [x = 1] the rule of [s] runs
    twice and [x] ends with gradient 4. *)
Theorem C2_build_dag_repeats_shared_node :
  (forall v, shared_add_dag v = Ok ([0; 0; 1], [1; 0; 0])) /\
  (exists h', double_visit_demo [] = Ok (F32.of_Z 4, h')).
Proof.
  split.
  - intros v. reflexivity.
  - eexists. vm_compute. reflexivity.
Qed.

(** C3. The program of [main], from any older heap: after
    [a = leaf(-3); b = leaf(2); c = sub(a, b); reverse(c)] the value of
    [c] is -5, the gradient of [a] is 1 and the gradient of [b] is 0; the
    operands of [c] are [a] and a fresh leaf holding -2, which is not [b]
    and which receives the gradient 1. *)
Theorem C3_subtract_scenario h :
  exists a b c negB h',
    main h = Ok ((a, b, c), h') /\
    value h' c = Some (F32.of_Z (-5)) /\
    gradient h' a = Some F32.one /\
    gradient h' b = Some F32.zero /\
    children <$> h' !! c = Some [a; negB] /\
    negB <> b /\
    h' !! negB = Some (with_grad F32.one (leaf_node (F32.of_Z (-2)))).
Proof.
  unfold main, bind. rewrite !defaultValue_run.
  rewrite (sub_run _ _ _ (leaf_node (F32.of_Z (-3))) (leaf_node (F32.of_Z 2)));
    [| rewrite <- app_assoc; apply list_lookup_middle; reflexivity
     | apply list_lookup_middle; rewrite length_app; simpl; lia ].
  rewrite <- !app_assoc, !length_app. cbn [app length].
  single_pass 3. heap_run.
  eexists _, _, _, (length h + 2), _. split; [reflexivity |].
  unfold value, gradient.
  rewrite (lookup_at h _ _ 3), (lookup_at h _ _ 0), (lookup_at h _ _ 1),
    (lookup_at h _ _ 2) by lia.
  repeat split; try reflexivity; lia.
Qed.

(** C4. For a fresh leaf [x] of any value and [c = add(x, x)], after
    [reverse(c)] the gradient of [x] is exactly 2. *)
Theorem C4_shared_operand_accumulates v h :
  exists h', shared_add v h = Ok (F32.two, h').
Proof.
  unfold shared_add, bind. rewrite defaultValue_run.
  rewrite (add_run _ _ _ (leaf_node v) (leaf_node v))
    by (apply list_lookup_middle; reflexivity).
  rewrite <- app_assoc, length_app. cbn [app length].
  single_pass 1. heap_run. eexists. reflexivity.
Qed.

(** C5. From any heap, [relu(leaf(-1))] has value 0 and [relu(leaf(2))]
    has value 2, and [relu(leaf(x))] has value [x] when [x > 0] and 0
    otherwise; the same holds for [relu(a)] on any existing node [a].
    [relu_reverse] on a node [c] with operand [a] adds [c->grad] to
    [a->grad] when [a->data > 0] and adds 0 otherwise, then clamps
    [a->grad]; [0 > 0] is false, so nothing flows at 0. After
    [reverse(relu(a))] the gradient of the fresh leaf [a] is the clamp
    of [0 + 1] when [a->data > 0] and of [0 + 0] otherwise: 1 for
    [a = 2] and 0 for [a = 0] and [a = -1]. *)
Theorem C5_relu_forward_and_reverse h :
  (exists h', relu_forward (F32.of_Z (-1)) h = Ok (F32.zero, h')) /\
  (exists h', relu_forward (F32.of_Z 2) h = Ok (F32.of_Z 2, h')) /\
  (forall x, exists h',
     relu_forward x h = Ok (if F32.gtb x F32.zero then x else F32.zero, h')) /\
  (forall a va, h !! a = Some va ->
     exists r h', relu a h = Ok (r, h') /\
       value h' r = Some (if F32.gtb (data va) F32.zero then data va else F32.zero)) /\
  (forall c a vc va,
     h !! c = Some vc -> children vc !! 0 = Some a -> h !! a = Some va ->
     relu_reverse c h =
       Ok (tt, <[a := with_grad
                        (clip (F32.add (grad va)
                                 (if F32.gtb (data va) F32.zero then grad vc else F32.zero)))
                        va]> h)) /\
  F32.gtb F32.zero F32.zero = false /\
  (forall x, exists h',
     relu_pass x h =
     Ok (clip (F32.add F32.zero (if F32.gtb x F32.zero then F32.one else F32.zero)), h')) /\
  (exists h', relu_pass (F32.of_Z 2) h = Ok (F32.one, h')) /\
  (exists h', relu_pass F32.zero h = Ok (F32.zero, h')) /\
  (exists h', relu_pass (F32.of_Z (-1)) h = Ok (F32.zero, h')).
Proof.
  split; [apply (relu_forward_run (F32.of_Z (-1))) |].
  split; [apply (relu_forward_run (F32.of_Z 2)) |].
  split; [intros x; apply relu_forward_run |].
  split.
  { intros a va Hva. rewrite (relu_run _ _ _ Hva). eexists _, _. split; [reflexivity |].
    unfold value. rewrite list_lookup_middle by reflexivity. reflexivity. }
  split; [intros c a vc va Hc Ha Hva; apply relu_reverse_run; assumption |].
  split; [reflexivity |].
  split; [intros x; apply relu_pass_run |].
  split; [apply (relu_pass_run (F32.of_Z 2)) |].
  split; [apply (relu_pass_run F32.zero) | apply (relu_pass_run (F32.of_Z (-1)))].
Qed.

(** C6, as amended. [add_reverse] on a node [c] with two different
    operands leaves in each operand the clamp of its gradient plus
    [c->grad]; after any of the four rules has run, every operand it
    updates holds a clamped gradient, one that is in [[-10, 10]] or NaN:
    the clamp is part of every rule and not a step at the end of the
    pass. [grad_clip] stores [clip] of the gradient; [clip g] is in
    [[-10, 10]] whenever [g] is not NaN, and NaN is left as it is.
    Under a chain of 3 doublings the leaf ends with gradient 8; under a
    chain of 20 doublings, whose raw sum is [2^20], it ends with the
    maximum 10 and every gradient of the heap is in the range. *)
Theorem C6_clip_after_each_rule h c a b vc va vb :
  h !! c = Some vc -> children vc !! 0 = Some a -> children vc !! 1 = Some b ->
  h !! a = Some va -> h !! b = Some vb -> a <> b -> a <> c -> b <> c ->
  add_reverse c h =
    Ok (tt, <[b := with_grad (clip (F32.add (grad vb) (grad vc))) vb]>
              (<[a := with_grad (clip (F32.add (grad va) (grad vc))) va]> h)) /\
  (forall f p h0 h1 vp i q,
     call_reverse f p h0 = Ok (tt, h1) ->
     h0 !! p = Some vp -> i < arity (Some f) -> children vp !! i = Some q ->
     exists vq, h1 !! q = Some vq /\ clamped (grad vq)) /\
  (forall p h0, grad_clip p h0 = modify p (fun v => with_grad (clip (grad v)) v) h0) /\
  (forall g, F32.is_nan g = false -> in_range (clip g) = true) /\
  clip F32.nan = F32.nan /\
  (exists h', chain_demo 3 [] = Ok (F32.of_Z 8, h')) /\
  (exists h', chain_demo 20 [] = Ok (MAX_RANGE, h') /\
              forallb (fun v => in_range (grad v)) h' = true).
Proof.
  intros Hc Ha Hb Hva Hvb Hab Hac Hbc.
  split; [apply add_reverse_run; assumption |].
  split; [intros; eapply rule_clamps; eassumption |].
  split; [apply grad_clip_modify |].
  split; [apply clip_in_range |].
  split; [reflexivity |].
  split.
  - eexists. vm_compute. reflexivity.
  - eexists. split; [vm_compute; reflexivity | vm_compute; reflexivity].
Qed.

(** C7. [divide(a, b)] is the composition
    [mul(a, pwr(b, leaf(-1)))]: the two are the same heap action. On
    operands that exist it allocates the leaf -1, the [pwr] node over [b]
    and that leaf, and the [mul] node over [a] and the [pwr] node, whose
    value is [a->data * powf(b->data, -1)]; a reverse pass after it
    behaves as after the composition. *)
Theorem C7_divide_is_mul_of_pwr h a b va vb :
  h !! a = Some va -> h !! b = Some vb ->
  divide a b = divide_spec a b /\
  exists c h',
    divide a b h = Ok (c, h') /\
    value h' c = Some (F32.mul (data va) (powf (data vb) (F32.of_Z (-1)))) /\
    h' = h ++ [leaf_node (F32.of_Z (-1));
               binary_node (powf (data vb) (F32.of_Z (-1))) b (length h) pwr_reverse_fn;
               binary_node (F32.mul (data va) (powf (data vb) (F32.of_Z (-1))))
                           a (S (length h)) mul_reverse_fn] /\
    c = S (S (length h)) /\
    forall root, (c' <- divide a b ;; reverse root) h = (c' <- divide_spec a b ;; reverse root) h.
Proof.
  intros Ha Hb. split; [reflexivity |].
  rewrite (divide_run _ _ _ _ _ Ha Hb). eexists _, _. split; [reflexivity |].
  split; [| auto].
  unfold value. rewrite (lookup_at h _ _ 2) by lia. reflexivity.
Qed.

(** C8. [reverse] never resets a gradient: a pass adds to whatever the
    nodes hold. For fresh leaves [a] and [b] of any values and
    [c = add(a, b)]: after one call of [reverse(c)] both gradients are
    1, after two calls both are 2, and after [n] calls both are the
    result of [n] times adding 1 and clamping, starting from 0. From
    any [add] node [c] over two different leaves that hold any gradients
    [ga] and [gb], [reverse(c)] leaves the clamps of [ga + 1] and
    [gb + 1]. Below the root it is the same: on [r = relu(s)],
    [s = add(x, y)] with any gradients [gx], [gy], [gs], [gr] in the
    four nodes, [reverse(r)] sets [r->grad = 1], leaves in [s] the clamp
    [gs'] of [gs + 1] (of [gs + 0] when [s->data > 0] is false), not a
    fresh value, and in [x] and [y] the clamps of [gx + gs'] and
    [gy + gs']. So for [x = 3] and [y = 4] the gradients of [x], [y] and
    [s] are 1, 1, 1 after one pass and 3, 3, 2 after two. *)
Theorem C8_second_pass_accumulates va vb h :
  (exists h1, add_passes 1 va vb h = Ok ((F32.one, F32.one), h1)) /\
  (exists h2, add_passes 2 va vb h = Ok ((F32.two, F32.two), h2)) /\
  (forall n, exists h',
     add_passes n va vb h =
     Ok ((Nat.iter n accumulate F32.zero, Nat.iter n accumulate F32.zero), h')) /\
  (forall c a b vc wa wb,
     h !! c = Some vc -> v_reverse vc = Some add_reverse_fn ->
     children vc = [a; b] -> n_children vc = 2 ->
     h !! a = Some wa -> n_children wa = 0 -> v_reverse wa = None ->
     h !! b = Some wb -> n_children wb = 0 -> v_reverse wb = None ->
     a <> b ->
     reverse c h =
     Ok (tt, <[b := with_grad (clip (F32.add (grad wb) F32.one)) wb]>
               (<[a := with_grad (clip (F32.add (grad wa) F32.one)) wa]>
                  (<[c := with_grad F32.one vc]> h)))) /\
  (forall dx dy ds dr gx gy gs gr,
     reverse (length h + 3) (h ++ relu_add_graph (length h) dx dy ds dr gx gy gs gr) =
     Ok (tt,
         h ++ relu_add_graph (length h) dx dy ds dr
                (clip (F32.add gx
                   (clip (F32.add gs (if F32.gtb ds F32.zero then F32.one else F32.zero)))))
                (clip (F32.add gy
                   (clip (F32.add gs (if F32.gtb ds F32.zero then F32.one else F32.zero)))))
                (clip (F32.add gs (if F32.gtb ds F32.zero then F32.one else F32.zero)))
                F32.one)) /\
  (exists h1, relu_add_passes 1 (F32.of_Z 3) (F32.of_Z 4) h =
              Ok ((F32.one, F32.one, F32.one), h1)) /\
  (exists h2, relu_add_passes 2 (F32.of_Z 3) (F32.of_Z 4) h =
              Ok ((F32.of_Z 3, F32.of_Z 3, F32.two), h2)).
Proof.
  split; [apply (add_passes_run 1) |].
  split; [apply (add_passes_run 2) |].
  split; [intros n; apply add_passes_run |].
  split; [intros c a b vc wa wb; apply add_reverse_pass |].
  split; [| apply relu_add_passes_run].
  intros dx dy ds dr gx gy gs gr. unfold relu_add_graph.
  rewrite (relu_add_reverse_run h (length h) (length h + 1) (length h + 2))
    by lia.
  reflexivity.
Qed.

(** C9. Each operator called on existing nodes returns and leaves every
    older node as it was, in all fields. [reverse], whenever it returns,
    leaves the heap with the same nodes and the same [data], [children],
    [n_children] and [reverse] fields; on a heap built by the operators
    it returns unless the buffers of [MAX_DAG_SIZE] slots overflow. *)
Theorem C9_forward_graph_immutable h a b :
  a < length h -> b < length h ->
  (exists r h', add a b h = Ok (r, h') /\ unchanged h h') /\
  (exists r h', sub a b h = Ok (r, h') /\ unchanged h h') /\
  (exists r h', mul a b h = Ok (r, h') /\ unchanged h h') /\
  (exists r h', pwr a b h = Ok (r, h') /\ unchanged h h') /\
  (exists r h', divide a b h = Ok (r, h') /\ unchanged h h') /\
  (exists r h', relu a h = Ok (r, h') /\ unchanged h h') /\
  (forall h', reverse a h = Ok (tt, h') -> same_graph h h') /\
  (wf h -> reverse a h = Err Overflow \/
           exists h', reverse a h = Ok (tt, h') /\ same_graph h h').
Proof.
  intros Ha Hb.
  destruct (lookup_lt_is_Some_2 h a Ha) as [va Hva].
  destruct (lookup_lt_is_Some_2 h b Hb) as [vb Hvb].
  repeat split.
  - rewrite (add_run _ _ _ _ _ Hva Hvb). eexists _, _. split; [reflexivity |].
    apply unchanged_app.
  - rewrite (sub_run _ _ _ _ _ Hva Hvb). eexists _, _. split; [reflexivity |].
    apply unchanged_app.
  - rewrite (mul_run _ _ _ _ _ Hva Hvb). eexists _, _. split; [reflexivity |].
    apply unchanged_app.
  - rewrite (pwr_run _ _ _ _ _ Hva Hvb). eexists _, _. split; [reflexivity |].
    apply unchanged_app.
  - rewrite (divide_run _ _ _ _ _ Hva Hvb). eexists _, _. split; [reflexivity |].
    apply unchanged_app.
  - rewrite (relu_run _ _ _ Hva). eexists _, _. split; [reflexivity |].
    apply unchanged_app.
  - apply same_graph_shape. eapply keeps_reverse. eassumption.
  - apply same_graph_shape. eapply keeps_reverse. eassumption.
  - intros Hwf. destruct (reverse_wf h a Hwf Ha) as [E | (h' & E & Hs & _)]; [auto |].
    right. exists h'. split; [exact E |]. apply same_graph_shape. exact Hs.
Qed.

(** C10. On a heap built by the operators, whatever gradients it holds,
    [reverse(root)] either overflows its buffers or returns with
    [root->grad] exactly 1.0 (and the heap is still well formed, so the
    same holds for the next pass). *)
Theorem C10_root_gradient_is_seed h root :
  wf h -> root < length h ->
  reverse root h = Err Overflow \/
  exists h', reverse root h = Ok (tt, h') /\
             gradient h' root = Some F32.one /\ wf h'.
Proof.
  intros Hwf Hroot. destruct (reverse_wf h root Hwf Hroot) as [E | (h' & E & Hs & Hr)];
    [auto |].
  right. exists h'. split; [exact E |]. split.
  - unfold gradient. rewrite Hr.
    destruct (lookup_lt_is_Some_2 h root Hroot) as [v ->]. reflexivity.
  - eapply wf_same_shape; eassumption.
Qed.

(** ** Further properties of the code *)

(** X1. Whatever the heap, a call of [build_dag] that returns has only
    appended to its two buffers. What it appended is given by the calls
    that got past the membership loop: none, or the call on [val] with
    the calls its loop made on operands of [val], in the order of
    [val->children], and so on below them. [visited] has received the
    nodes of these calls in the order in which the calls were entered
    and [dag] in the order in which they returned, so [val] is the
    first node added to [visited] and the last added to [dag]. Both
    have received the same nodes, all of them reachable from [val]; so
    [len_visited - dag_size] is the same before and after the call, and
    the membership loop over [visited[0 .. dag_size-1]] never reads a
    slot that was not written when it starts with
    [dag_size <= len_visited]. *)
Theorem X1_build_dag_appends fuel h val dag visited dag' visited' :
  build_dag fuel h val dag visited = Ok (dag', visited') ->
  (exists f, (f = [] \/ exists ts, f = [Call val ts]) /\
             Forall (calls_in h) f /\
             dag' = dag ++ flat_map exit_order f /\
             visited' = visited ++ flat_map entry_order f /\
             flat_map exit_order f ≡ₚ flat_map entry_order f /\
             Forall (reach h val) (flat_map exit_order f)) /\
  length dag' + length visited = length dag + length visited' /\
  (length dag <= length visited -> length dag' <= length visited').
Proof.
  intros E. destruct (build_dag_added _ _ _ _ _ _ _ E) as (l & l' & Hl & Hl' & Hp & Hr).
  destruct (build_dag_calls _ _ _ _ _ _ _ E) as (f & Hf & Hin & Hd & Hv).
  assert (l = flat_map exit_order f) as El
    by (apply (app_inv_head dag); rewrite <- Hl; exact Hd).
  assert (l' = flat_map entry_order f) as El'
    by (apply (app_inv_head visited); rewrite <- Hl'; exact Hv).
  pose proof (Permutation_length Hp) as Hlen. subst l l'.
  split; [exists f; auto 10 |]. rewrite Hd, Hv, !length_app. lia.
Qed.

(** X2. On a heap built by the operators, when the call of [build_dag]
    that [reverse] makes returns, every entry of [dag] has all operands
    of its node before it, the last entry is the root, and the nodes in
    [dag] are exactly the nodes reachable from the root (a node may
    occur more than once). *)
Theorem X2_build_dag_topological h root dag visited :
  wf h ->
  build_dag (S (length h)) h root [] [] = Ok (dag, visited) ->
  ordered h dag /\
  last dag = Some root /\
  (forall p, p ∈ dag <-> reach h root p).
Proof.
  intros Hwf E.
  destruct (build_dag_ordered h Hwf _ root [] [] [] _ _ E) as (_ & Ho & Hroot).
  { constructor. }
  { intros q Hq. apply elem_of_nil in Hq. contradiction. }
  { intros i p c Hi. rewrite lookup_nil in Hi. discriminate. }
  destruct (build_dag_added _ _ _ _ _ _ _ E) as (l & l' & Hl & _ & _ & Hr).
  simpl in Hl. subst l.
  split; [exact Ho |]. split.
  - rewrite build_dag_S in E. cbn [length firstn existsb] in E.
    destruct (MAX_DAG_SIZE <=? 0); [discriminate |].
    destruct (h !! root) as [v|]; [| discriminate].
    destruct (operands v) as [cs|]; [| discriminate]. cbn [rbind] in E.
    destruct (foldl _ _ cs) as [[d1 v1] |]; [| discriminate]. cbn [rbind fst snd] in E.
    destruct (MAX_DAG_SIZE <=? length d1); [discriminate |]. inversion E; subst.
    apply last_snoc.
  - intros p. split.
    + intros Hp. apply (proj1 (Forall_forall _ _) Hr p Hp).
    + revert p. apply (rtc_ind_r (fun p => p ∈ dag) root); [exact Hroot |].
      intros y z _ Hyz Hy. apply list_elem_of_lookup in Hy as [i Hi].
      eapply (subseteq_take i). eapply Ho; eassumption.
Qed.

(** X3. On a heap built by the operators, a reverse pass that returns
    has left every node that is not reachable from the root exactly as
    it was, its gradient included. *)
Theorem X3_reverse_touches_reachable_only h root h' :
  wf h -> reverse root h = Ok (tt, h') ->
  forall q, ~ reach h root q -> h' !! q = h !! q.
Proof.
  intros Hwf E q Hq. unfold reverse in E.
  destruct (build_dag _ _ _ _ _) as [[dag visited] | e] eqn:Eb; [| discriminate].
  destruct (build_dag_added _ _ _ _ _ _ _ Eb) as (l & l' & Hl & _ & _ & Hr).
  simpl in Hl. subst l.
  assert (triple (shape h)
            (fun p => p = root \/ exists c, c ∈ rev dag /\ updated_by (shape h) c p)
            (set_grad root F32.one ;; reverse_loop (rev dag)) (fun _ => True)) as Ht.
  { eapply triple_bind.
    - apply triple_set_grad. left. reflexivity.
    - intros _ _. eapply triple_mono; [apply triple_reverse_loop |]. intros p Hp. auto. }
  destruct (Ht h tt h' eq_refl E) as (_ & Hframe & _). apply Hframe.
  intros [-> | (c & Hc & Hu)].
  - apply Hq. apply rtc_refl.
  - apply Hq. apply list_elem_of_In, in_rev, list_elem_of_In in Hc.
    eapply rtc_r; [apply (proj1 (Forall_forall _ _) Hr c Hc) |].
    apply updated_by_child_of; assumption.
Qed.

(** X4. If every gradient of the heap is clamped (in [[-10, 10]] or NaN)
    before a reverse pass, then every gradient is clamped after it. *)
Theorem X4_reverse_keeps_gradients_clamped h root h' :
  all_clamped h -> reverse root h = Ok (tt, h') -> all_clamped h'.
Proof.
  intros Hall E. unfold reverse in E.
  destruct (build_dag _ _ _ _ _) as [[dag visited] | e]; [| discriminate].
  apply bind_inv in E as ([] & h1 & E1 & E2).
  eapply reverse_loop_clamped; [exact E2 |].
  unfold set_grad, modify in E1. destruct (h !! root) as [v|]; [| discriminate].
  inversion E1; subst h1. apply Forall_insert; [exact Hall |].
  right. reflexivity.
Qed.

(** X5. A gradient rule that returns has changed nothing but the
    [grad] fields of the operands it updates: the first two operands of
    the node for [add_reverse], [mul_reverse] and [pwr_reverse], the
    first one for [relu_reverse]. Every other node, the node of the rule
    included unless it is its own operand, is as it was. *)
Theorem X5_rule_footprint f c h h' :
  call_reverse f c h = Ok (tt, h') ->
  same_graph h h' /\
  forall q,
    (forall i v, i < arity (Some f) -> h !! c = Some v -> children v !! i <> Some q) ->
    h' !! q = h !! q.
Proof.
  intros E.
  destruct (triple_call_reverse (shape h) f c h tt h' eq_refl E) as (Hs & Hframe & _).
  split; [apply same_graph_shape; exact Hs |].
  intros q Hq. apply Hframe. intros (i & Hi & Hat).
  apply (proj1 (operand_at_shape _ _ _ _)) in Hat as (v & Hv & Hc). exact (Hq i v Hi Hv Hc).
Qed.

(** X6. [mul_reverse] on a node [c] with two different operands [a]
    and [b] adds [c->grad * b->data] to [a->grad] and
    [c->grad * a->data] to [b->grad], clamps both, and changes nothing
    else. *)
Theorem X6_mul_reverse_rule h c a b vc va vb :
  h !! c = Some vc -> children vc !! 0 = Some a -> children vc !! 1 = Some b ->
  h !! a = Some va -> h !! b = Some vb -> a <> b -> a <> c -> b <> c ->
  mul_reverse c h =
  Ok (tt, <[b := with_grad (clip (F32.add (grad vb) (F32.mul (grad vc) (data va)))) vb]>
            (<[a := with_grad (clip (F32.add (grad va) (F32.mul (grad vc) (data vb)))) va]> h)).
Proof. apply mul_reverse_run. Qed.

(** X7. For fresh leaves [a] and [b] of any values, after
    [reverse(mul(a, b))] the gradient of [a] is the clamp of
    [0 + 1 * b->data] and the gradient of [b] is the clamp of
    [0 + 1 * a->data]. For [c = mul(x, x)] both contributions land in
    [x], which is clamped once they are both in: its gradient is the
    clamp of [(0 + 1 * x->data) + 1 * x->data]. *)
Theorem X7_mul_pass va vb h :
  (exists h', mul_pass va vb h =
     Ok ((clip (F32.add F32.zero (F32.mul F32.one vb)),
          clip (F32.add F32.zero (F32.mul F32.one va))), h')) /\
  (exists h', square_pass va h =
     Ok (clip (F32.add (F32.add F32.zero (F32.mul F32.one va)) (F32.mul F32.one va)),
         h')).
Proof.
  split.
  - unfold mul_pass. build_two va vb mul_run. single_pass 2. heap_run.
    eexists. reflexivity.
  - unfold square_pass, bind. rewrite defaultValue_run.
    rewrite (mul_run _ _ _ (leaf_node va) (leaf_node va))
      by (apply list_lookup_middle; reflexivity).
    rewrite <- app_assoc, length_app. cbn [app length].
    single_pass 1. heap_run. rewrite clip_idempotent. eexists. reflexivity.
Qed.

(** X8. The clamp of [grad_clip] is idempotent and is the identity on
    [[-10, 10]]; so a second [grad_clip] on the same node changes
    nothing. *)
Theorem X8_grad_clip_idempotent :
  (forall g, clip (clip g) = clip g) /\
  (forall g, in_range g = true -> clip g = g) /\
  (forall p h, (grad_clip p ;; grad_clip p) h = grad_clip p h).
Proof.
  split; [apply clip_idempotent |]. split; [apply clip_in_range_id |].
  intros p h. unfold bind. rewrite (grad_clip_modify p h). unfold modify.
  destruct (h !! p) as [v|] eqn:Hv; [| reflexivity].
  rewrite grad_clip_modify. unfold modify.
  rewrite list_lookup_insert_eq by (eapply lookup_lt_Some; exact Hv).
  rewrite list_insert_insert_eq. cbn [with_grad grad data children n_children v_reverse].
  rewrite clip_idempotent. reflexivity.
Qed.

(** X9. For fresh leaves [a] and [b] of any values and [c = sub(a, b)]:
    the value of [c] is the [float] difference [a->data - b->data], and
    after [reverse(c)] the gradient of [a] is 1 and the gradient of [b]
    is 0. *)
Theorem X9_sub_pass va vb h :
  exists h', sub_pass va vb h = Ok ((F32.sub va vb, F32.one, F32.zero), h').
Proof.
  unfold sub_pass. build_two va vb sub_run. single_pass 3. heap_run.
  rewrite add_neg_sub. eexists. reflexivity.
Qed.

(** X10. The value of [relu(a)] is never negative and never NaN,
    whatever [a] holds: it is [+0] unless [a->data > 0]. *)
Theorem X10_relu_value_not_negative h a va :
  h !! a = Some va ->
  exists r h' d,
    relu a h = Ok (r, h') /\ value h' r = Some d /\
    F32.leb F32.zero d = true /\ F32.is_nan d = false /\
    (F32.gtb (data va) F32.zero = false -> d = F32.zero).
Proof.
  intros Ha. rewrite (relu_run _ _ _ Ha). eexists _, _, _. split; [reflexivity |].
  split.
  { unfold value. rewrite list_lookup_middle by reflexivity. reflexivity. }
  cbn [data]. unfold F32.gtb, F32.leb, SFltb, SFleb.
  destruct (SFcompare F32.zero (data va)) as [[| |] |] eqn:Hcmp;
    try (split; [reflexivity |]; split; [reflexivity | reflexivity]).
  rewrite Hcmp. split; [reflexivity |]. split; [| discriminate].
  destruct (data va); try discriminate; reflexivity.
Qed.

(** X11. [reverse] on a leaf only seeds it: the gradient of the leaf
    becomes 1 and nothing else changes. *)
Theorem X11_reverse_leaf h root v :
  h !! root = Some v -> n_children v = 0 -> v_reverse v = None ->
  reverse root h = Ok (tt, <[root := with_grad F32.one v]> h).
Proof.
  intros Hv Hn Hf. unfold reverse. rewrite build_dag_S. cbn [length firstn existsb].
  destruct (Nat.leb_spec MAX_DAG_SIZE 0) as [Hm | _]; [unfold MAX_DAG_SIZE in Hm; lia |].
  rewrite Hv. unfold operands. rewrite Hn, take_0. cbn [Nat.leb rbind foldl fst snd length].
  destruct (Nat.leb_spec MAX_DAG_SIZE 0) as [Hm | _]; [unfold MAX_DAG_SIZE in Hm; lia |].
  cbn [app rev reverse_loop]. unfold bind, set_grad, modify. rewrite Hv.
  unfold reverse_step, bind, load.
  rewrite list_lookup_insert_eq by (eapply lookup_lt_Some; exact Hv).
  cbn [with_grad v_reverse]. rewrite Hf. reflexivity.
Qed.

(** X12. For fresh leaves [a] and [b] of any values, after
    [reverse(pwr(a, b))] the gradient of the base [a] is the clamp of
    [0 + b->data * pow(a->data, b->data - 1) * 1], computed in [double]
    and rounded to [float], whatever the sign of the exponent. *)
Theorem X12_pwr_base_gradient va vb h :
  exists h',
    pwr_base_pass va vb h =
    Ok (clip (F32.round
                (F64.add (F64.of_f32 F32.zero)
                   (F64.mul (F64.mul (F64.of_f32 vb)
                                     (pow (F64.of_f32 va) (F64.of_f32 (F32.sub vb F32.one))))
                            (F64.of_f32 F32.one)))),
        h').
Proof.
  unfold pwr_base_pass. build_two va vb pwr_run. single_pass 2. heap_run.
  destruct (F32.gtb vb F32.zero); heap_run; eexists; reflexivity.
Qed.


(** X14. [free_node] on a node with [n] operands calls [free] on the
    first [(n + 1) / 2] operands, in order, and then on the node itself:
    every pass of the loop raises [i] and lowers the bound
    [val->n_children]. It does not descend into the operands. For a node
    with two operands only the first one is freed. *)
Theorem X14_free_node_frees_half h val v :
  h !! val = Some v -> n_children v <= length (children v) ->
  free_node val h =
    Ok (take (Nat.div2 (S (n_children v))) (children v) ++ [val],
        <[val := with_n_children (n_children v - Nat.div2 (S (n_children v))) v]> h) /\
  (forall a b, children v = [a; b] -> n_children v = 2 ->
     exists h', free_node val h = Ok ([a; val], h')).
Proof.
  intros Hv Hlen. pose proof (free_node_run h val v Hv Hlen) as E.
  split; [exact E |].
  intros a b Hab Hn. rewrite E, Hab, Hn. eexists. reflexivity.
Qed.

(** X15. Two nodes that share their first operand: calling [free_node]
    on both passes the shared operand to [free] twice. *)
Theorem X15_free_node_frees_shared_operand_twice h p1 p2 v1 v2 a :
  h !! p1 = Some v1 -> h !! p2 = Some v2 -> p1 <> p2 ->
  children v1 !! 0 = Some a -> children v2 !! 0 = Some a ->
  0 < n_children v1 <= length (children v1) ->
  0 < n_children v2 <= length (children v2) ->
  exists l2 l3 h', free_two p1 p2 h = Ok (a :: l2 ++ a :: l3, h').
Proof.
  intros H1 H2 Hne Ha1 Ha2 [Hn1 Hl1] [Hn2 Hl2].
  unfold free_two, bind. rewrite (free_node_run h p1 v1 H1 Hl1).
  rewrite (free_node_run _ p2 v2); [| rewrite list_lookup_insert_ne by exact Hne; exact H2 | exact Hl2].
  destruct (take_half_first _ a _ Ha1 Hn1) as [k1 ->].
  destruct (take_half_first _ a _ Ha2 Hn2) as [k2 ->].
  unfold ret. eexists (take k1 (tail (children v1)) ++ [p1]), _, _.
  reflexivity.
Qed.

End Engine.

(** ** The theorems at concrete inputs *)

Lemma wf_used_heap : wf used_heap.
Proof.
  intros p v Hp. destruct p as [| [| [| [| p]]]]; simpl in Hp; inversion Hp; subst;
    simpl; repeat split; repeat constructor; lia.
Defined.

Lemma C5_relu_witness :
  relu_reverse 1 relu_heap =
  Ok (tt, [with_grad F32.one (leaf_node (F32.of_Z 2));
           mkValue (F32.of_Z 2) F32.one [0] 1 (Some relu_reverse_fn)]).
Proof.
  exact (proj1 (proj2 (proj2 (proj2 (proj2
           (C5_relu_forward_and_reverse libm_pow libm_log relu_heap))))) 1 0 _ _
           eq_refl eq_refl eq_refl).
Defined.

Lemma C6_clip_witness :
  add_reverse 2 add_heap =
  Ok (tt, [with_grad MAX_RANGE (leaf_node F32.one);
           with_grad F32.one (leaf_node F32.one);
           with_grad F32.one (binary_node F32.two 0 1 add_reverse_fn)]).
Proof.
  refine (proj1 (C6_clip_after_each_rule libm_pow libm_log add_heap 2 0 1 _ _ _
                   eq_refl eq_refl eq_refl eq_refl eq_refl _ _ _)); discriminate.
Defined.

Lemma C7_divide_witness :
  exists c h',
    divide libm_powf 0 1 two_leaves = Ok (c, h') /\
    value h' c = Some (F32.of_Z 3).
Proof.
  destruct (C7_divide_is_mul_of_pwr libm_powf libm_pow libm_log two_leaves 0 1 _ _
              eq_refl eq_refl) as [_ (c & h' & E & V & _)].
  exists c, h'. split; [exact E | exact V].
Defined.

Lemma C8_prior_gradients_witness :
  reverse libm_pow libm_log 3
    (relu_add_graph 0 (F32.of_Z 3) (F32.of_Z 4) (F32.of_Z 7) (F32.of_Z 7)
       F32.one F32.one F32.one F32.one) =
  Ok (tt, relu_add_graph 0 (F32.of_Z 3) (F32.of_Z 4) (F32.of_Z 7) (F32.of_Z 7)
            (F32.of_Z 3) (F32.of_Z 3) F32.two F32.one).
Proof.
  exact (proj1 (proj2 (proj2 (proj2 (proj2
           (C8_second_pass_accumulates libm_pow libm_log F32.zero F32.zero [])))))
           (F32.of_Z 3) (F32.of_Z 4) (F32.of_Z 7) (F32.of_Z 7)
           F32.one F32.one F32.one F32.one).
Defined.

Lemma C9_frame_witness :
  exists r h', add 0 1 two_leaves = Ok (r, h') /\ unchanged two_leaves h'.
Proof.
  refine (proj1 (C9_forward_graph_immutable libm_powf libm_pow libm_log
                   two_leaves 0 1 _ _)); simpl; lia.
Defined.

Lemma C10_seed_witness :
  gradient used_heap 3 = Some MAX_RANGE /\
  exists h', reverse libm_pow libm_log 3 used_heap = Ok (tt, h') /\
             gradient h' 3 = Some F32.one.
Proof.
  split; [reflexivity |].
  destruct (C10_root_gradient_is_seed libm_pow libm_log used_heap 3 wf_used_heap)
    as [E | (h' & E & G & _)].
  - simpl. lia.
  - vm_compute in E. discriminate E.
  - exists h'. split; [exact E | exact G].
Defined.

(** C6, as stated, fails: in [nan_demo] the node [w = add(u, v)] gets the
    gradient [1 * (inf * 0)] from [mul_reverse] and hands it to [u] in
    [add_reverse]; both gradients are NaN after the pass, outside
    [[-10, 10]], whatever the math library is. *)
Lemma C6_nan_gradient_escapes_clamp :
  ~ (forall pow log gw gu h',
       nan_demo pow log [] = Ok ((gw, gu), h') ->
       in_range gw = true /\ in_range gu = true).
Proof.
  intros H.
  assert (exists h', nan_demo libm_pow libm_log [] = Ok ((F32.nan, F32.nan), h'))
    as [h' E] by (eexists; vm_compute; reflexivity).
  destruct (H _ _ _ _ _ E) as [Hw _]. discriminate Hw.
Qed.

(** ** The further properties at concrete inputs *)


Lemma used_heap_unreachable : ~ reach used_heap 3 1.
Proof.
  assert (forall q, reach used_heap 3 q -> q = 3 \/ q = 0 \/ q = 2) as H.
  { apply (rtc_ind_r (fun q => q = 3 \/ q = 0 \/ q = 2) 3); [auto |].
    intros y z _ (v & i & Hv & Hi & Hc) [-> | [-> | ->]];
      simpl in Hv; inversion Hv; subst v; simpl in Hi;
      destruct i as [| [| i]]; simpl in Hc; inversion Hc; subst; auto; lia. }
  intros Hr. destruct (H 1 Hr) as [? | [? | ?]]; discriminate.
Defined.

Lemma X1_buffers_witness :
  exists f, [0; 2; 3] = flat_map exit_order f /\ [3; 0; 2] = flat_map entry_order f /\
            Forall (calls_in used_heap) f /\
            Forall (reach used_heap 3) (flat_map exit_order f).
Proof.
  destruct (X1_build_dag_appends 5 used_heap 3 [] [] [0; 2; 3] [3; 0; 2] eq_refl)
    as ((f & _ & Hin & Hd & Hv & _ & Hr) & _).
  exists f. auto.
Defined.

Lemma X2_topological_witness :
  ordered used_heap [0; 2; 3] /\ last [0; 2; 3] = Some 3 /\
  (forall p, p ∈ [0; 2; 3] <-> reach used_heap 3 p).
Proof.
  exact (X2_build_dag_topological used_heap 3 [0; 2; 3] [3; 0; 2] wf_used_heap eq_refl).
Defined.

Lemma X3_footprint_witness :
  exists h', reverse libm_pow libm_log 3 used_heap = Ok (tt, h') /\
             h' !! 1 = used_heap !! 1.
Proof.
  destruct (reverse libm_pow libm_log 3 used_heap) as [[[] h'] | e] eqn:E;
    [| vm_compute in E; discriminate E].
  exists h'. split; [reflexivity |].
  exact (X3_reverse_touches_reachable_only libm_pow libm_log used_heap 3 h'
           wf_used_heap E 1 used_heap_unreachable).
Defined.

Lemma X4_clamped_witness :
  exists h', reverse libm_pow libm_log 3 used_heap = Ok (tt, h') /\ all_clamped h'.
Proof.
  destruct (reverse libm_pow libm_log 3 used_heap) as [[[] h'] | e] eqn:E;
    [| vm_compute in E; discriminate E].
  exists h'. split; [reflexivity |].
  apply (X4_reverse_keeps_gradients_clamped libm_pow libm_log used_heap 3 h'); [| exact E].
  repeat constructor; right; reflexivity.
Defined.

Lemma X5_rule_footprint_witness :
  exists h', call_reverse libm_pow libm_log add_reverse_fn 2 add_heap = Ok (tt, h') /\
             h' !! 2 = add_heap !! 2.
Proof.
  destruct (call_reverse libm_pow libm_log add_reverse_fn 2 add_heap)
    as [[[] h'] | e] eqn:E; [| vm_compute in E; discriminate E].
  exists h'. split; [reflexivity |].
  apply (proj2 (X5_rule_footprint libm_pow libm_log add_reverse_fn 2 add_heap h' E)).
  intros i v Hi Hv. simpl in Hv. inversion Hv; subst v.
  destruct i as [| [| i]]; simpl in *; [discriminate | discriminate | lia].
Defined.

Lemma X6_mul_rule_witness :
  mul_reverse 2 mul_heap =
  Ok (tt, [with_grad (F32.of_Z 4) (leaf_node (F32.of_Z 3));
           with_grad (F32.of_Z 3) (leaf_node (F32.of_Z 4));
           with_grad F32.one (binary_node (F32.of_Z 12) 0 1 mul_reverse_fn)]).
Proof.
  refine (X6_mul_reverse_rule mul_heap 2 0 1 _ _ _
            eq_refl eq_refl eq_refl eq_refl eq_refl _ _ _); discriminate.
Defined.

Lemma X10_relu_witness :
  exists r h' d,
    relu 0 two_leaves = Ok (r, h') /\ value h' r = Some d /\
    F32.leb F32.zero d = true /\ F32.is_nan d = false /\
    (F32.gtb (data (leaf_node (F32.of_Z 6))) F32.zero = false -> d = F32.zero).
Proof.
  exact (X10_relu_value_not_negative two_leaves 0 _ eq_refl).
Defined.

Lemma X11_leaf_witness :
  reverse libm_pow libm_log 0 two_leaves =
  Ok (tt, [with_grad F32.one (leaf_node (F32.of_Z 6)); leaf_node (F32.of_Z 2)]).
Proof.
  exact (X11_reverse_leaf libm_pow libm_log two_leaves 0 _ eq_refl eq_refl eq_refl).
Defined.


Lemma X14_free_witness :
  exists h', free_node 3 used_heap = Ok ([0; 3], h').
Proof.
  refine (proj2 (X14_free_node_frees_half used_heap 3 _ eq_refl _) 0 2 eq_refl eq_refl).
  simpl. lia.
Defined.

Lemma X15_double_free_witness :
  exists l2 l3 h', free_two 2 3 shared_heap = Ok (0 :: l2 ++ 0 :: l3, h').
Proof.
  refine (X15_free_node_frees_shared_operand_twice shared_heap 2 3 _ _ 0
            eq_refl eq_refl _ eq_refl eq_refl _ _); [discriminate | simpl; lia ..].
Defined.
